(** * reco_utils.dataset.pandas_df_utils

    A shallow embedding of the four table transforms of
    [reco_utils/dataset/pandas_df_utils.py]:
    [user_item_pairs], [filter_by], [libffm_converter] and
    [negative_feedback_sampler], and the properties stated about them. *)

From Stdlib Require Import ZArith Lia.
From stdpp Require Import base decidable option list strings pretty gmap sorting.

Local Open Scope string_scope.
Local Open Scope list_scope.
Local Open Scope Z_scope.

(** ** Data model: values, dtypes, series and data frames *)

(** The Python objects a cell can hold.  A float is kept as the decimal
    [m * 10^-e] that Python prints for it ([VFloat 10 1] is [1.0]);
    not-a-number and exponent notation are outside the model. *)
Inductive value :=
  | VStr (s : string)
  | VInt (z : Z)
  | VFloat (m : Z) (e : nat)
  | VBool (b : bool).

(** The column element types of pandas that the code distinguishes. *)
Inductive dtype :=
  | DObject
  | DInt (bits : nat)
  | DUInt (bits : nat)
  | DFloat16
  | DFloat32
  | DFloat64
  | DBool
  | DDatetime64.

Inductive error :=
  | TypeError (msg : string)
  | KeyError (key : string)
  | ValueError (msg : string).

#[global] Instance value_eq_dec : EqDecision value.
Proof. solve_decision. Defined.
#[global] Instance dtype_eq_dec : EqDecision dtype.
Proof. solve_decision. Defined.
#[global] Instance error_eq_dec : EqDecision error.
Proof. solve_decision. Defined.

Record Series := mkSeries { dtype_of : dtype; values : list value }.

(** A frame is column-major, as in pandas: a row count (the index) and
    the named columns in their order. *)
Record DataFrame := mkDF { nrows : nat; columns : list (string * Series) }.

#[global] Instance Series_eq_dec : EqDecision Series.
Proof. solve_decision. Defined.
#[global] Instance DataFrame_eq_dec : EqDecision DataFrame.
Proof. solve_decision. Defined.

#[global] Instance value_inhabited : Inhabited value := populate (VInt 0).

Definition column_names (df : DataFrame) : list string := (columns df).*1.

(** Uniquely named columns, each as long as the index. *)
Definition wf_frame (df : DataFrame) : Prop :=
  NoDup (column_names df) ∧
  Forall (λ c, length (values c.2) = nrows df) (columns df).

#[global] Instance wf_frame_dec df : Decision (wf_frame df).
Proof. unfold wf_frame. apply _. Defined.

(** A small error monad for the calls that can raise. *)
Definition result (A : Type) : Type := error + A.
Definition ret {A} (a : A) : result A := inr a.
Definition raise {A} (e : error) : result A := inl e.
Definition bind {A B} (m : result A) (k : A → result B) : result B :=
  match m with inl e => inl e | inr a => k a end.
Notation "x ←! m ; k" := (bind m (λ x, k))
  (at level 100, m at next level, right associativity).


Fixpoint mapR {A B} (f : A → result B) (l : list A) : result (list B) :=
  match l with
  | [] => ret []
  | a :: l' => b ←! f a; bs ←! mapR f l'; ret (b :: bs)
  end.

(** [df[name]]: the first column of that name, a key error without one. *)
Fixpoint lookup_col (cols : list (string * Series)) (name : string) : option Series :=
  match cols with
  | [] => None
  | (n, s) :: cols' => if decide (n = name) then Some s else lookup_col cols' name
  end.

Definition get_col (df : DataFrame) (name : string) : result Series :=
  match lookup_col (columns df) name with
  | Some s => ret s
  | None => raise (KeyError name)
  end.

(** [df[name] = s]: overwrite in place, or append as the last column. *)
Fixpoint assign_col (cols : list (string * Series)) (name : string) (s : Series)
  : list (string * Series) :=
  match cols with
  | [] => [(name, s)]
  | (n, s0) :: cols' =>
      if decide (n = name) then (n, s) :: cols' else (n, s0) :: assign_col cols' name s
  end.

Definition set_col (df : DataFrame) (name : string) (s : Series) : DataFrame :=
  mkDF (nrows df) (assign_col (columns df) name s).

(** [df.drop(name, axis=1)]: a key error when no column has the name. *)
Definition drop_col (df : DataFrame) (name : string) : result DataFrame :=
  if decide (name ∈ column_names df)
  then ret (mkDF (nrows df) (filter (λ c, c.1 ≠ name) (columns df)))
  else raise (KeyError name).

(** [df[names]]: the named columns, in the order asked for. *)
Definition select_cols (df : DataFrame) (names : list string) : result DataFrame :=
  cols ←! mapR (λ n, s ←! get_col df n; ret (n, s)) names;
  ret (mkDF (nrows df) cols).

(** The cells of row [i], column after column, and the rows of a frame. *)
Definition row_at (df : DataFrame) (i : nat) : list value :=
  omap (λ c, values c.2 !! i) (columns df).

Definition frame_rows (df : DataFrame) : list (list value) :=
  (λ i, row_at df i) <$> seq 0 (nrows df).

(** ** Text forms *)

Fixpoint pad_zeros (n : nat) (s : string) : string :=
  match n with O => s | S n' => "0" +:+ pad_zeros n' s end.

(** The digits of a non-negative [m] with a point [e] places from the
    right. *)
Definition decimal_point (m : Z) (e : nat) : string :=
  let d := pretty (Z.to_N m) in
  let d := pad_zeros (S e - String.length d) d in
  let k := (String.length d - e)%nat in
  String.substring 0 k d +:+ "." +:+ String.substring k e d.

(** [str(x)], which is what ["{}".format(x)] prints. *)
Definition py_str (v : value) : string :=
  match v with
  | VStr s => s
  | VInt z => pretty z
  | VFloat m e => (if decide (m < 0) then "-" else "") +:+ decimal_point (Z.abs m) e
  | VBool b => if b then "True" else "False"
  end.

Definition isinstance_str (v : value) : bool :=
  match v with VStr _ => true | _ => false end.

(** ** Dictionary keys

    Python compares dictionary keys with [==] (and equal hashes): [1],
    [1.0] and [True] are one key, a string is only equal to itself. *)
Inductive pykey :=
  | KStr (s : string)
  | KNum (m : Z) (e : nat).

#[global] Instance pykey_eq_dec : EqDecision pykey.
Proof. solve_decision. Defined.

(** Trailing zeros of the decimal are dropped, at most [e] of them. *)
Fixpoint strip_zeros (m : Z) (e : nat) : Z * nat :=
  match e with
  | O => (m, O)
  | S e' => if decide (m mod 10 = 0) then strip_zeros (m / 10) e' else (m, e)
  end.

Definition key_of (v : value) : pykey :=
  match v with
  | VStr s => KStr s
  | VInt z => KNum z 0
  | VFloat m e => let '(m', e') := strip_zeros m e in KNum m' e'
  | VBool b => KNum (if b then 1 else 0) 0
  end.

#[global] Instance pykey_countable : Countable pykey.
Proof.
  refine (inj_countable'
    (λ k, match k with KStr s => inl s | KNum m e => inr (m, e) end)
    (λ x, match x with inl s => KStr s | inr (m, e) => KNum m e end) _).
  by intros [].
Defined.

(** ** libffm_converter *)

Module LibFFM.

(** The type check of line 130: [object], any integer dtype, or exactly
    the double precision float that [np.float] stands for. *)
Definition dtype_ok (x : dtype) : bool :=
  match x with
  | DObject => true
  | DInt _ | DUInt _ => true
  | DFloat64 => true
  | _ => false
  end.

Definition check_types (df : DataFrame) : bool :=
  forallb dtype_ok (dtype_of <$> (columns df).*2).

(** The state of the encoding loop: the next code and the dictionary. *)
Record enc_state := mkEnc {
  idx : nat;
  field_feature_dict : gmap (string * pykey) nat
}.

Definition init_state : enc_state := mkEnc 1 ∅.

(** Lines 143-145, one cell. *)
Definition encode_feature (field : string) (st : enc_state) (feature : value) : enc_state :=
  match field_feature_dict st !! (field, key_of feature) with
  | Some _ => st
  | None => mkEnc (S (idx st)) (<[(field, key_of feature) := idx st]> (field_feature_dict st))
  end.

(** Lines 139-145, one field. *)
Definition encode_field (df : DataFrame) (st : enc_state) (field : string) : result enc_state :=
  s ←! get_col df field;
  if decide (dtype_of s = DObject)
  then ret (foldl (encode_feature field) st (values s))
  else ret st.

Fixpoint encode_fields (df : DataFrame) (st : enc_state) (fields : list string)
  : result enc_state :=
  match fields with
  | [] => ret st
  | f :: fs => st' ←! encode_field df st f; encode_fields df st' fs
  end.

(** [_convert], lines 147-154. *)
Definition _convert (field : string) (feature : value) (field_index : nat)
    (field_feature_index_dict : gmap (string * pykey) nat) : result string :=
  p ←! (if isinstance_str feature
        then match field_feature_index_dict !! (field, key_of feature) with
             | Some field_feature_index => ret (field_feature_index, VInt 1)
             | None => raise (KeyError field)
             end
        else ret (field_index, feature));
  ret (pretty field_index +:+ ":" +:+ pretty p.1 +:+ ":" +:+ py_str p.2).

(** Lines 156-157: the columns are rewritten one after the other, in
    place, each becoming a column of strings. *)
Fixpoint convert_cols (d : gmap (string * pykey) nat) (df_new : DataFrame)
    (cols : list (nat * string)) : result DataFrame :=
  match cols with
  | [] => ret df_new
  | (col_index, col) :: cols' =>
      s ←! get_col df_new col;
      vs ←! mapR (λ x, t ←! _convert col x (col_index + 1) d; ret (VStr t)) (values s);
      convert_cols d (set_col df_new col (mkSeries DObject vs)) cols'
  end.

Definition enumerate {A} (l : list A) : list (nat * A) := imap (λ i a, (i, a)) l.

(** The whole call with [filepath=None]. *)
Definition libffm_converter (df : DataFrame) (col_rating : string) : result DataFrame :=
  let df_new := df in
  if negb (check_types df_new)
  then raise (TypeError "Input columns should be only object and/or numeric types.")
  else
    dropped ←! drop_col df_new col_rating;
    let field_names := column_names dropped in
    st ←! encode_fields df_new init_state field_names;
    df_new ←! convert_cols (field_feature_dict st) df_new (enumerate field_names);
    let field_names := col_rating :: field_names in
    select_cols df_new field_names.

(** [np.savetxt(..., delimiter=' ', fmt='%s')] line by line. *)
Fixpoint join_with (sep : string) (l : list string) : string :=
  match l with
  | [] => ""
  | [s] => s
  | s :: l' => s +:+ sep +:+ join_with sep l'
  end.

Definition text_lines (df : DataFrame) : list string :=
  (λ r, join_with " " (py_str <$> r)) <$> frame_rows df.

Definition df_feature : DataFrame :=
  mkDF 5
    [ ("rating", mkSeries (DInt 64) [VInt 1; VInt 0; VInt 0; VInt 1; VInt 1]);
      ("field1", mkSeries DObject
         [VStr "xxx1"; VStr "xxx2"; VStr "xxx4"; VStr "xxx4"; VStr "xxx4"]);
      ("field2", mkSeries (DInt 64) [VInt 3; VInt 4; VInt 5; VInt 6; VInt 7]);
      ("field3", mkSeries DFloat64
         [VFloat 10 1; VFloat 20 1; VFloat 30 1; VFloat 40 1; VFloat 50 1]);
      ("field4", mkSeries DObject [VStr "1"; VStr "2"; VStr "3"; VStr "4"; VStr "5"]) ].

(** The table that the scenario expects back. *)
Definition df_out : DataFrame :=
  mkDF 5
    [ ("rating", mkSeries (DInt 64) [VInt 1; VInt 0; VInt 0; VInt 1; VInt 1]);
      ("field1", mkSeries DObject
         [VStr "1:1:1"; VStr "1:2:1"; VStr "1:3:1"; VStr "1:3:1"; VStr "1:3:1"]);
      ("field2", mkSeries DObject
         [VStr "2:2:3"; VStr "2:2:4"; VStr "2:2:5"; VStr "2:2:6"; VStr "2:2:7"]);
      ("field3", mkSeries DObject
         [VStr "3:3:1.0"; VStr "3:3:2.0"; VStr "3:3:3.0"; VStr "3:3:4.0"; VStr "3:3:5.0"]);
      ("field4", mkSeries DObject
         [VStr "4:4:1"; VStr "4:5:1"; VStr "4:6:1"; VStr "4:7:1"; VStr "4:8:1"]) ].

(** *** The dictionary pass as one scan *)

(** One step of the loop on a key. *)
Definition encode_key (st : enc_state) (k : string * pykey) : enc_state :=
  match field_feature_dict st !! k with
  | Some _ => st
  | None => mkEnc (S (idx st)) (<[k := idx st]> (field_feature_dict st))
  end.

(** The keys in the order the loops of lines 138-140 visit them: field
    after field, each object column from its first row to its last. *)
Definition scan_field (df : DataFrame) (field : string) : list (string * pykey) :=
  match lookup_col (columns df) field with
  | Some s =>
      if decide (dtype_of s = DObject)
      then (λ v, (field, key_of v)) <$> values s
      else []
  | None => []
  end.

Definition scan (df : DataFrame) (fields : list string) : list (string * pykey) :=
  fields ≫= scan_field df.

(** What the scan has seen so far determines the state. *)
Definition scanned (st : enc_state) (seen : list (string * pykey)) : Prop :=
  idx st = S (size (field_feature_dict st)) ∧
  dom (field_feature_dict st) = list_to_set seen.

(** The codes of a state are the numbers from 1 up to the counter, each
    the code of one key. *)
Definition coded (st : enc_state) : Prop :=
  idx st = S (size (field_feature_dict st)) ∧
  (∀ k c, field_feature_dict st !! k = Some c → (1 ≤ c < idx st)%nat) ∧
  (∀ k k' c, field_feature_dict st !! k = Some c →
             field_feature_dict st !! k' = Some c → k = k') ∧
  (∀ c, (1 ≤ c < idx st)%nat → ∃ k, field_feature_dict st !! k = Some c).

(** What pandas guarantees of a column that is not of dtype [object]:
    none of its cells is a string. *)
Definition typed_frame (df : DataFrame) : Prop :=
  Forall (λ c, dtype_of c.2 ≠ DObject →
               Forall (λ v, isinstance_str v = false) (values c.2)) (columns df).

#[global] Instance typed_frame_dec df : Decision (typed_frame df).
Proof. unfold typed_frame. apply _. Defined.

(** The token of a cell: for a string the code that the dictionary has
    for it and the value 1, for any other cell the field index twice and
    the cell as it prints. *)
Definition token (d : gmap (string * pykey) nat) (field : string) (field_index : nat)
    (v : value) : string :=
  if isinstance_str v
  then pretty field_index +:+ ":" +:+ pretty (default 0%nat (d !! (field, key_of v)))
         +:+ ":" +:+ py_str (VInt 1)
  else pretty field_index +:+ ":" +:+ pretty field_index +:+ ":" +:+ py_str v.


Definition is_type_error {A} (r : result A) : Prop :=
  ∃ msg, r = inl (TypeError msg).


End LibFFM.


(** ** filter_by and user_item_pairs *)

Module Pairs.

(** [df.set_index(cols).index]: the key of every row, the cells of the
    key columns from left to right, compared as Python compares them.  A
    missing key column is a key error. *)
Definition key_at (ss : list Series) (i : nat) : list pykey :=
  omap (λ s, key_of <$> values s !! i) ss.

Definition set_index (df : DataFrame) (cols : list string) : result (list (list pykey)) :=
  ss ←! mapR (get_col df) cols;
  ret (key_at ss <$> seq 0 (nrows df)).

(** The key of a row on two columns. *)
Definition pair_key (x y : value) : list pykey := [key_of x; key_of y].

(** A frame seen through two of its columns: both are there, as long as
    the index, and [index] is the list of the row keys on them. *)
Definition keyed_on (df : DataFrame) (user_col item_col : string)
    (index : list (list pykey)) : Prop :=
  ∃ su si, lookup_col (columns df) user_col = Some su ∧
           lookup_col (columns df) item_col = Some si ∧
           length (values su) = nrows df ∧ length (values si) = nrows df ∧
           index = zip_with pair_key (values su) (values si).

(** [l[mask]] for a boolean mask. *)
Fixpoint compress {A} (mask : list bool) (l : list A) : list A :=
  match mask, l with
  | b :: mask', a :: l' => if b then a :: compress mask' l' else compress mask' l'
  | _, _ => []
  end.

Definition count_true (mask : list bool) : nat := length (filter (λ b, b = true) mask).

(** [df.loc[mask]] *)
Definition loc_mask (df : DataFrame) (mask : list bool) : DataFrame :=
  mkDF (count_true mask)
       ((λ c, (c.1, mkSeries (dtype_of c.2) (compress mask (values c.2)))) <$> columns df).

(** A column under a mask, and a column without its first cell. *)
Definition mask_series (mask : list bool) (s : Series) : Series :=
  mkSeries (dtype_of s) (compress mask (values s)).

Definition tail_series (s : Series) : Series :=
  mkSeries (dtype_of s) (tail (values s)).

(** [index.isin(other)] *)
Definition isin (index other : list (list pykey)) : list bool :=
  (λ k, bool_decide (k ∈ other)) <$> index.

Definition filter_by (df filter_by_df : DataFrame) (filter_by_cols : list string)
  : result DataFrame :=
  index ←! set_index df filter_by_cols;
  other ←! set_index filter_by_df filter_by_cols;
  ret (loc_mask df (negb <$> isin index other)).

(** [s.take(locs)]: the rows at the given positions, in that order. *)
Definition take (locs : list nat) (s : Series) : Series :=
  mkSeries (dtype_of s) (omap (λ i, values s !! i) locs).

Definition take_rows (df : DataFrame) (locs : list nat) : DataFrame :=
  mkDF (length locs) ((λ c, (c.1, take locs c.2)) <$> columns df).

(** [left.merge(right, on=key)], the inner join: the pairs of a left and
    a right row with equal keys, left rows outermost; the key column
    stays where the left frame has it, and a name that both frames have
    besides the key gets the suffixes [_x] and [_y]. *)
Definition join_locs (lk rk : list pykey) : list (nat * nat) :=
  i ← seq 0 (length lk);
  j ← seq 0 (length rk);
  if decide (lk !! i = rk !! j) then [(i, j)] else [].

Definition suffixed (others : list string) (on_ : string) (suffix : string)
    (name : string) : string :=
  if decide (name ≠ on_ ∧ name ∈ others) then name +:+ suffix else name.

Definition merge (left right : DataFrame) (on_ : string) : result DataFrame :=
  lk ←! get_col left on_;
  rk ←! get_col right on_;
  let locs := join_locs (key_of <$> values lk) (key_of <$> values rk) in
  let lcols :=
    (λ c, (suffixed (column_names right) on_ "_x" c.1, take locs.*1 c.2))
      <$> columns left in
  let rcols :=
    (λ c, (suffixed (column_names left) on_ "_y" c.1, take locs.*2 c.2))
      <$> filter (λ c, c.1 ≠ on_) (columns right) in
  ret (mkDF (length locs) (lcols ++ rcols)).

(** The callers' frames live in a store, by reference: the function
    writes to its two arguments.  An exception leaves the store as it is
    at that point. *)
Definition heap : Type := nat → DataFrame.
Definition store (h : heap) (r : nat) (df : DataFrame) : heap :=
  λ r', if decide (r' = r) then df else h r'.
Definition M (A : Type) : Type := heap → result A * heap.

Definition retM {A} (a : A) : M A := λ h, (inr a, h).
Definition bindM {A B} (m : M A) (k : A → M B) : M B :=
  λ h, match m h with
       | (inl e, h') => (inl e, h')
       | (inr a, h') => k a h'
       end.
Definition liftM {A} (r : result A) : M A := λ h, (r, h).
Definition readM (r : nat) : M DataFrame := λ h, (inr (h r), h).
Definition writeM (r : nat) (df : DataFrame) : M unit := λ h, (inr tt, store h r df).

Notation "x ←$ m ; k" := (bindM m (λ x, k))
  (at level 100, m at next level, right associativity).

(** [df[name] = v] with a scalar, through the reference. *)
Definition setitem_scalar (r : nat) (name : string) (v : value) (dt : dtype) : M unit :=
  df ←$ readM r;
  writeM r (set_col df name (mkSeries dt (replicate (nrows df) v))).

(** [df.drop(name, axis=1, inplace=True)] *)
Definition drop_inplace (r : nat) (name : string) : M unit :=
  df ←$ readM r;
  df' ←$ liftM (drop_col df name);
  writeM r df'.

(** [df.sample(frac=1).reset_index(drop=True)]: the rows in the order
    the unseeded generator picks, [rng n] being the permutation of the [n]
    positions that it draws. *)
Definition sample_all (rng : nat → list nat) (df : DataFrame) : DataFrame :=
  take_rows df (rng (nrows df)).

Definition user_item_pairs (rng : nat → list nat) (user_df item_df : nat)
    (user_col item_col : string) (user_item_filter_df : option DataFrame)
    (shuffle : bool) : M DataFrame :=
  _ ←$ setitem_scalar user_df "key" (VInt 1) (DInt 64);
  _ ←$ setitem_scalar item_df "key" (VInt 1) (DInt 64);
  u ←$ readM user_df;
  i ←$ readM item_df;
  users_items ←$ liftM (merge u i "key");
  _ ←$ drop_inplace user_df "key";
  _ ←$ drop_inplace item_df "key";
  users_items ←$ liftM (drop_col users_items "key");
  users_items ←$
    match user_item_filter_df with
    | Some f => liftM (filter_by users_items f [user_col; item_col])
    | None => retM users_items
    end;
  let users_items := if shuffle then sample_all rng users_items else users_items in
  retM users_items.

(** A frame after line 37 or 38. *)
Definition keyed (df : DataFrame) : DataFrame :=
  set_col df "key" (mkSeries (DInt 64) (replicate (nrows df) (VInt 1))).

(** A frame without the columns called [key]. *)
Definition without_key (df : DataFrame) : DataFrame :=
  mkDF (nrows df) (filter (λ c, c.1 ≠ "key") (columns df)).

(** The pairs of the elements of two lists, the first list outermost. *)
Definition cross {A B} (l : list A) (k : list B) : list (A * B) :=
  a ← l; b ← k; [(a, b)].

(** The cross join that the constant key makes of the merge: every
    pair of a left and a right row, left rows outermost, the columns of
    the left frame followed by the columns of the right frame. *)
Definition cross_locs (u i : DataFrame) : list (nat * nat) :=
  cross (seq 0 (nrows u)) (seq 0 (nrows i)).

Definition cross_join (u i : DataFrame) : DataFrame :=
  mkDF (length (cross_locs u i))
       (((λ c, (c.1, take (cross_locs u i).*1 c.2)) <$> columns u) ++
        ((λ c, (c.1, take (cross_locs u i).*2 c.2)) <$> columns i)).

(** Two callers' frames at the references 0 and 1. *)
Definition two_frames (user_df item_df : DataFrame) : heap :=
  store (store (λ _, mkDF 0 []) 1 item_df) 0 user_df.

Definition users3 : DataFrame :=
  mkDF 3 [ ("userID", mkSeries (DInt 64) [VInt 1; VInt 2; VInt 3]);
           ("age", mkSeries (DInt 64) [VInt 30; VInt 40; VInt 50]) ].

Definition items2 : DataFrame :=
  mkDF 2 [ ("itemID", mkSeries (DInt 64) [VInt 10; VInt 20]);
           ("genre", mkSeries DObject [VStr "a"; VStr "b"]) ].

Definition seen2 : DataFrame :=
  mkDF 3 [ ("userID", mkSeries (DInt 64) [VInt 1; VInt 3; VInt 1]);
           ("itemID", mkSeries (DInt 64) [VInt 20; VInt 10; VInt 20]) ].

(** A user table that has a column called [key] of its own. *)
Definition users_with_key : DataFrame :=
  mkDF 2 [ ("userID", mkSeries (DInt 64) [VInt 1; VInt 2]);
           ("key", mkSeries DObject [VStr "k1"; VStr "k2"]) ].

End Pairs.

(** ** negative_feedback_sampler *)

Module Sampler.

(** The interaction log with integer cells, as in the documented
    example: user ids, item ids and whatever other integer columns. *)
Record IntFrame := mkIF { irows : nat; icolumns : list (string * list Z) }.

#[global] Instance IntFrame_eq_dec : EqDecision IntFrame.
Proof. solve_decision. Defined.

Definition icolumn_names (df : IntFrame) : list string := (icolumns df).*1.

Definition wf_iframe (df : IntFrame) : Prop :=
  NoDup (icolumn_names df) ∧ Forall (λ c, length c.2 = irows df) (icolumns df).

Fixpoint icol (cols : list (string * list Z)) (name : string) : list Z :=
  match cols with
  | [] => []
  | (n, vs) :: cols' => if decide (n = name) then vs else icol cols' name
  end.

(** [series.unique()]: the distinct values in the order of their first
    appearance. *)
Fixpoint unique_from (seen : list Z) (l : list Z) : list Z :=
  match l with
  | [] => []
  | x :: l' =>
      if decide (x ∈ seen) then unique_from seen l' else x :: unique_from (x :: seen) l'
  end.

Definition unique (l : list Z) : list Z := unique_from [] l.

(** A row of the three-column frames the function builds: user, item
    and rating. *)
Definition row : Type := Z * Z * Z.
Definition user_of (r : row) : Z := r.1.1.
Definition item_of (r : row) : Z := r.1.2.
Definition rating_of (r : row) : Z := r.2.

(** Lines 225-229. *)
Definition user_item_feedback (users items : list Z) (user_item_tuples : list (Z * Z))
  : list row :=
  user ← users;
  item ← items;
  let feedback := if bool_decide ((user, item) ∈ user_item_tuples) then 1 else 0 in
  [(user, item, feedback)].

(** [x.sample(n=n, random_state=seed, replace=False)]: a fresh generator
    from the seed draws [n] of the [len(x)] positions, [choice seed len n];
    a negative [n] is a value error. *)
Definition sample (choice : Z → nat → nat → list nat) (x : list row) (n : Z) (seed : Z)
  : result (list row) :=
  if decide (n < 0)
  then raise (ValueError "A negative number of rows requested. Please provide positive value.")
  else ret (omap (λ p, x !! p) (choice seed (length x) (Z.to_nat n))).

(** [groupby(col_user)]: the groups by ascending user, each with its rows
    in their order. *)
Definition group_keys (rows : list row) : list Z :=
  merge_sort Z.le (unique (user_of <$> rows)).

Definition group (rows : list row) (user : Z) : list row :=
  filter (λ r, user_of r = user) rows.

Definition row_le (a b : row) : Prop :=
  user_of a < user_of b ∨ (user_of a = user_of b ∧ item_of a ≤ item_of b).

#[global] Instance row_le_dec : RelDecision row_le.
Proof. intros a b. unfold row_le. apply _. Defined.

(** [sort_values(by=[col_user, col_item])] *)
Definition sort_values (rows : list row) : list row := merge_sort row_le rows.

Definition frame_of_rows (col_user col_item : string) (rows : list row) : IntFrame :=
  mkIF (length rows)
       [ (col_user, user_of <$> rows); (col_item, item_of <$> rows);
         ("rating", rating_of <$> rows) ].

(** Lines 233-254: the positives, a sample of the negatives of every
    user, and the sort. *)
Definition sample_negatives (choice : Z → nat → nat → list nat)
    (df_all : list row) (number_neg_per_pos seed : Z) : result (list row) :=
  let df_pos := filter (λ r, rating_of r = 1) df_all in
  let df_neg := filter (λ r, rating_of r = 0) df_all in
  groups ←! mapR (λ user,
                    let x := group df_neg user in
                    sample choice x (Z.min number_neg_per_pos (Z.of_nat (length x))) seed)
                 (group_keys df_neg);
  let df_neg_sample := mjoin groups in
  ret (sort_values (df_pos ++ df_neg_sample)).

(** Lines 218-254 on the two id columns. *)
Definition sampled_rows (choice : Z → nat → nat → list nat)
    (user_column item_column : list Z) (number_neg_per_pos seed : Z) : result (list row) :=
  let users := unique user_column in
  let items := unique item_column in
  let user_item_tuples := zip user_column item_column in
  let df_all := user_item_feedback users items user_item_tuples in
  sample_negatives choice df_all number_neg_per_pos seed.

Definition negative_feedback_sampler (choice : Z → nat → nat → list nat)
    (df : IntFrame) (col_user col_item : string) (number_neg_per_pos seed : Z)
  : result IntFrame :=
  let columns := icolumn_names df in
  if decide (col_user ∉ columns)
  then raise (ValueError ("Column " +:+ col_user +:+ " is not in the dataframe"))
  else if decide (col_item ∉ columns)
  then raise (ValueError ("Column " +:+ col_item +:+ " is not in the dataframe"))
  else
    rows ←! sampled_rows choice (icol (icolumns df) col_user) (icol (icolumns df) col_item)
                         number_neg_per_pos seed;
    ret (frame_of_rows col_user col_item rows).

(** The label of a pair, the rows of one user in [df_all], and the
    unobserved rows among them. *)
Definition feedback_of (user_item_tuples : list (Z * Z)) (user item : Z) : Z :=
  if bool_decide ((user, item) ∈ user_item_tuples) then 1 else 0.

Definition rows_of_user (items : list Z) (user_item_tuples : list (Z * Z)) (user : Z)
  : list row :=
  item ← items; [(user, item, feedback_of user_item_tuples user item)].

Definition negatives_of (items : list Z) (user_item_tuples : list (Z * Z)) (user : Z)
  : list row :=
  filter (λ r, rating_of r = 0) (rows_of_user items user_item_tuples user).


(** The rows that the draw picks among the negatives of a user. *)
Definition picked (choice : Z → nat → nat → list nat) (items : list Z)
    (user_item_tuples : list (Z * Z)) (number_neg_per_pos seed : Z) (user : Z) : list row :=
  let x := negatives_of items user_item_tuples user in
  omap (λ p, x !! p)
       (choice seed (length x) (Z.to_nat (Z.min number_neg_per_pos (Z.of_nat (length x))))).

(** What a generator's draw without replacement always is: [n] distinct
    positions below [len]. *)
Definition valid_choice (choice : Z → nat → nat → list nat) : Prop :=
  ∀ seed len n, (n ≤ len)%nat →
    length (choice seed len n) = n ∧ NoDup (choice seed len n) ∧
    Forall (λ p, (p < len)%nat) (choice seed len n).

(** The simplest draw: the first [n] positions. *)
Definition first_n (seed : Z) (len n : nat) : list nat := seq 0 n.

(** The derived sets of the specification. *)
Definition U (df : IntFrame) (col_user : string) : gset Z :=
  list_to_set (icol (icolumns df) col_user).
Definition I (df : IntFrame) (col_item : string) : gset Z :=
  list_to_set (icol (icolumns df) col_item).
Definition S (df : IntFrame) (col_user col_item : string) : gset (Z * Z) :=
  list_to_set (zip (icol (icolumns df) col_user) (icol (icolumns df) col_item)).

Definition df3 : IntFrame :=
  mkIF 3 [ ("userID", [1; 2; 3]); ("itemID", [1; 2; 3]); ("rating", [5; 5; 5]) ].

(** The same three rows from the last to the first. *)
Definition df3_rev : IntFrame :=
  mkIF 3 [ ("userID", [3; 2; 1]); ("itemID", [3; 2; 1]); ("rating", [5; 5; 5]) ].

End Sampler.

(** * Properties *)

(** ** The error monad *)

Lemma bind_inr {A B} (m : result A) (k : A → result B) (b : B) :
  bind m k = inr b ↔ ∃ a, m = inr a ∧ k a = inr b.
Proof.
  destruct m as [e|a]; simpl; split.
  - discriminate.
  - intros (a & Ha & _). discriminate.
  - eauto.
  - intros (a' & Ha & Hk). by simplify_eq.
Qed.


(** ** libffm_converter *)

Section LibFFMFacts.
Import LibFFM.

(** C1 -- the documented five-row table is encoded to exactly the
    documented result: the label column first and unchanged, then the
    four fields with their tokens, row by row; written out as text the
    rows are the five lines of the scenario. *)
Theorem libffm_converter_scenario :
  libffm_converter df_feature "rating" = inr df_out ∧
  text_lines df_out =
    [ "1 1:1:1 2:2:3 3:3:1.0 4:4:1";
      "0 1:2:1 2:2:4 3:3:2.0 4:5:1";
      "0 1:3:1 2:2:5 3:3:3.0 4:6:1";
      "1 1:3:1 2:2:6 3:3:4.0 4:7:1";
      "1 1:3:1 2:2:7 3:3:5.0 4:8:1" ].
Proof. split; vm_compute; reflexivity. Qed.

Lemma encode_feature_key field st v :
  encode_feature field st v = encode_key st (field, key_of v).
Proof. reflexivity. Qed.

Lemma foldl_encode_feature field vs st :
  foldl (encode_feature field) st vs =
  foldl encode_key st ((λ v, (field, key_of v)) <$> vs).
Proof. revert st. induction vs as [|v vs IH]; intros st; simpl; [done|]. by rewrite IH. Qed.

Lemma lookup_col_Some cols name :
  name ∈ cols.*1 → is_Some (lookup_col cols name).
Proof.
  induction cols as [|[n s] cols IH]; simpl.
  - by intros ?%elem_of_nil.
  - intros Hin. case_decide; [eauto|].
    apply IH. apply elem_of_cons in Hin as [?|?]; [congruence|done].
Qed.

Lemma lookup_col_elem cols name s :
  lookup_col cols name = Some s → (name, s) ∈ cols.
Proof.
  induction cols as [|[n s0] cols IH]; simpl; [done|].
  case_decide; intros ?; simplify_eq; [left | right; auto].
Qed.

Lemma encode_field_scan df st field :
  field ∈ column_names df →
  encode_field df st field = inr (foldl encode_key st (scan_field df field)).
Proof.
  intros [s Hs]%lookup_col_Some.
  unfold encode_field, get_col, scan_field. rewrite Hs. simpl.
  case_decide; [|done]. by rewrite foldl_encode_feature.
Qed.

(** The nested loops are one left fold over the scan. *)
Lemma encode_fields_scan df fields st :
  fields ⊆ column_names df →
  encode_fields df st fields = inr (foldl encode_key st (scan df fields)).
Proof.
  revert st. induction fields as [|f fs IH]; intros st Hsub; simpl; [done|].
  rewrite encode_field_scan by set_solver. simpl.
  rewrite IH by set_solver. unfold scan. simpl. by rewrite foldl_app.
Qed.

Lemma scanned_init : scanned init_state [].
Proof. split; simpl; [by rewrite map_size_empty | by rewrite dom_empty_L]. Qed.

Lemma encode_key_scanned st seen k :
  scanned st seen → scanned (encode_key st k) (seen ++ [k]).
Proof.
  intros [Hidx Hdom]. unfold encode_key, scanned.
  destruct (field_feature_dict st !! k) as [c|] eqn:Hk; simpl.
  - split; [done|]. rewrite list_to_set_app_L, <-Hdom. simpl.
    apply elem_of_dom_2 in Hk. set_solver.
  - split.
    + rewrite map_size_insert_None by done. by rewrite Hidx.
    + rewrite dom_insert_L, list_to_set_app_L, Hdom. simpl. set_solver.
Qed.

Lemma encode_key_fresh st seen k :
  scanned st seen → k ∉ seen →
  field_feature_dict (encode_key st k) !! k
    = Some (S (size (list_to_set seen : gset (string * pykey)))).
Proof.
  intros [Hidx Hdom] Hk. unfold encode_key.
  assert (field_feature_dict st !! k = None) as ->.
  { apply not_elem_of_dom. rewrite Hdom. set_solver. }
  simpl. rewrite lookup_insert_eq, Hidx, <-Hdom, size_dom. done.
Qed.

Lemma encode_key_keeps st k k' c :
  field_feature_dict st !! k' = Some c →
  field_feature_dict (encode_key st k) !! k' = Some c.
Proof.
  intros Hk'. unfold encode_key.
  destruct (field_feature_dict st !! k) eqn:Hk; simpl; [done|].
  rewrite lookup_insert_ne; [done|]. intros ->. congruence.
Qed.

Lemma foldl_encode_key_keeps l st k' c :
  field_feature_dict st !! k' = Some c →
  field_feature_dict (foldl encode_key st l) !! k' = Some c.
Proof.
  revert st. induction l as [|k l IH]; intros st H; simpl; [done|].
  apply IH. by apply encode_key_keeps.
Qed.

Lemma foldl_encode_key_scanned l st seen :
  scanned st seen → scanned (foldl encode_key st l) (seen ++ l).
Proof.
  revert st seen. induction l as [|k l IH]; intros st seen H; simpl.
  - by rewrite app_nil_r.
  - rewrite cons_middle, app_assoc. apply IH. by apply encode_key_scanned.
Qed.

(** A key met for the first time after [l1] gets the code that follows
    the number of distinct keys of [l1]. *)
Lemma foldl_encode_key_first l1 k l2 :
  k ∉ l1 →
  field_feature_dict (foldl encode_key init_state (l1 ++ k :: l2)) !! k
    = Some (S (size (list_to_set l1 : gset (string * pykey)))).
Proof.
  intros Hk. rewrite foldl_app. simpl.
  apply foldl_encode_key_keeps.
  apply encode_key_fresh; [|done].
  apply (foldl_encode_key_scanned l1 init_state []), scanned_init.
Qed.

Lemma elem_of_scan df fields f k :
  (f, k) ∈ scan df fields →
  f ∈ fields ∧ ∃ s, (f, s) ∈ columns df ∧ dtype_of s = DObject ∧
                    ∃ v, v ∈ values s ∧ k = key_of v.
Proof.
  unfold scan. rewrite list_elem_of_bind. intros (f' & Hin & Hf').
  unfold scan_field in Hin.
  destruct (lookup_col (columns df) f') as [s|] eqn:Hs; [|by apply elem_of_nil in Hin].
  case_decide; [|by apply elem_of_nil in Hin].
  apply list_elem_of_fmap in Hin as (v & ? & Hv). simplify_eq.
  split; [done|]. exists s. split; [by apply lookup_col_elem|]. eauto.
Qed.

Lemma drop_col_names df name dropped :
  drop_col df name = inr dropped →
  column_names dropped = filter (λ n, n ≠ name) (column_names df).
Proof.
  unfold drop_col. case_decide; [|done]. intros [= <-].
  unfold column_names. simpl. generalize (columns df) as cols.
  induction cols as [|[n s] cols IH]; [done|].
  rewrite fmap_cons, !filter_cons. simpl.
  destruct (decide (n ≠ name)); simpl; [f_equal|]; exact IH.
Qed.

(** C2 -- the codes of the categorical cells come from one counter that
    starts at 1 and runs through all object columns: the fields are the
    non-label columns in their order, the dictionary is the fold of the
    loop step over their scan (column after column, top to bottom), a key
    met for the first time gets the number of distinct keys scanned
    before it plus one, and the dictionary only holds keys of cells of
    non-label object columns. *)
Theorem feature_codes_first_occurrence df col_rating dropped :
  drop_col df col_rating = inr dropped →
  let fields := column_names dropped in
  fields = filter (λ n, n ≠ col_rating) (column_names df) ∧
  ∃ st, encode_fields df init_state fields = inr st ∧
    st = foldl encode_key init_state (scan df fields) ∧
    idx st = S (size (field_feature_dict st)) ∧
    (∀ l1 k l2, scan df fields = l1 ++ k :: l2 → k ∉ l1 →
       field_feature_dict st !! k
         = Some (S (size (list_to_set l1 : gset (string * pykey))))) ∧
    (∀ f k c, field_feature_dict st !! (f, k) = Some c →
       f ≠ col_rating ∧
       ∃ s, (f, s) ∈ columns df ∧ dtype_of s = DObject ∧
            ∃ v, v ∈ values s ∧ k = key_of v).
Proof.
  intros Hdrop fields.
  pose proof (drop_col_names _ _ _ Hdrop) as Hfields. fold fields in Hfields.
  split; [done|].
  assert (fields ⊆ column_names df) as Hsub.
  { rewrite Hfields. intros n Hn. by apply list_elem_of_filter in Hn as [_ ?]. }
  eexists. split; [by apply encode_fields_scan|]. split; [done|].
  pose proof (foldl_encode_key_scanned (scan df fields) init_state [] scanned_init)
    as [Hidx Hdom].
  split; [done|]. split.
  - intros l1 k l2 -> Hk. by apply foldl_encode_key_first.
  - intros f k c Hc. apply elem_of_dom_2 in Hc. rewrite Hdom in Hc.
    apply elem_of_list_to_set, elem_of_scan in Hc as [Hf Hs].
    split; [|done]. rewrite Hfields in Hf.
    by apply list_elem_of_filter in Hf as [? _].
Qed.

Lemma feature_codes_first_occurrence_witness :
  drop_col df_feature "rating"
    = inr (mkDF 5 (filter (λ c, c.1 ≠ "rating") (columns df_feature))) ∧
  ∃ st, encode_fields df_feature init_state ["field1"; "field2"; "field3"; "field4"]
          = inr st ∧
        field_feature_dict st !! ("field4", KStr "1") = Some 4%nat.
Proof.
  split; [reflexivity|].
  destruct (feature_codes_first_occurrence df_feature "rating"
              (mkDF 5 (filter (λ c, c.1 ≠ "rating") (columns df_feature)))
              eq_refl) as (_ & st & Hst & _ & _ & Hfirst & _).
  exists st. split; [exact Hst|].
  apply (Hfirst [("field1", KStr "xxx1"); ("field1", KStr "xxx2"); ("field1", KStr "xxx4");
                 ("field1", KStr "xxx4"); ("field1", KStr "xxx4")]
                ("field4", KStr "1")
                [("field4", KStr "2"); ("field4", KStr "3"); ("field4", KStr "4");
                 ("field4", KStr "5")]).
  - reflexivity.
  - intros Hin. repeat (apply elem_of_cons in Hin as [Hin|Hin]; [discriminate|]).
    by apply elem_of_nil in Hin.
Defined.

(** *** The type check *)














End LibFFMFacts.

(** ** filter_by *)

Section FilterFacts.
Import Pairs.

Lemma get_col_Some df name :
  name ∈ column_names df → ∃ s, get_col df name = inr s ∧ (name, s) ∈ columns df.
Proof.
  intros [s Hs]%lookup_col_Some. exists s. unfold get_col. rewrite Hs.
  split; [done|]. by apply lookup_col_elem.
Qed.

Lemma mapR_get_col df cols :
  cols ⊆ column_names df →
  ∃ ss, mapR (get_col df) cols = inr ss ∧ length ss = length cols ∧
        Forall (λ s, s ∈ (columns df).*2) ss.
Proof.
  induction cols as [|c cols IH]; intros Hsub; simpl.
  - exists []. by repeat split.
  - destruct (get_col_Some df c) as (s & -> & Hs); [set_solver|].
    destruct IH as (ss & -> & Hlen & Hall); [set_solver|]. simpl.
    exists (s :: ss). repeat split; simpl; [by rewrite Hlen|].
    constructor; [|done]. apply list_elem_of_fmap. by exists (c, s).
Qed.

Lemma set_index_ok df cols :
  cols ⊆ column_names df →
  ∃ index, set_index df cols = inr index ∧ length index = nrows df.
Proof.
  intros (ss & Hss & _)%mapR_get_col. unfold set_index. rewrite Hss. simpl.
  eexists. split; [done|]. by rewrite length_fmap, length_seq.
Qed.

Lemma compress_all_true {A} (l : list A) mask :
  Forall (λ b, b = true) mask → length mask = length l → compress mask l = l.
Proof.
  revert l. induction mask as [|b mask IH]; intros [|a l] Hall Hlen; try done.
  inversion Hall; subst. simpl. f_equal. apply IH; [done|]. simpl in Hlen. lia.
Qed.


Lemma count_true_all_true mask :
  Forall (λ b, b = true) mask → count_true mask = length mask.
Proof.
  unfold count_true. induction 1 as [|b mask -> _ IH]; [done|].
  rewrite filter_cons_True by done. simpl. by rewrite IH.
Qed.


Lemma loc_mask_all_true df mask :
  wf_frame df → Forall (λ b, b = true) mask → length mask = nrows df →
  loc_mask df mask = df.
Proof.
  intros [_ Hlen] Hall Hmask. unfold loc_mask.
  rewrite count_true_all_true, Hmask by done.
  destruct df as [n cols]. simpl in *. f_equal.
  induction Hlen as [|[name [dt vs]] cols Hc _ IH]; [done|].
  rewrite fmap_cons. f_equal; [|exact IH].
  simpl in *. by rewrite compress_all_true by (done || congruence).
Qed.




End FilterFacts.

(** ** user_item_pairs *)

Section PairsFacts.
Import Pairs.

Lemma assign_col_fresh cols name s :
  name ∉ cols.*1 → assign_col cols name s = cols ++ [(name, s)].
Proof.
  induction cols as [|[n s0] cols IH]; simpl; [done|].
  intros Hn. rewrite not_elem_of_cons in Hn. destruct Hn as [Hne Hn].
  case_decide; [congruence|]. by rewrite IH.
Qed.

Lemma filter_names_fresh (cols : list (string * Series)) name :
  name ∉ cols.*1 → filter (λ c, c.1 ≠ name) cols = cols.
Proof.
  induction cols as [|[n s0] cols IH]; [done|]. simpl.
  intros Hn. rewrite not_elem_of_cons in Hn. destruct Hn as [Hne Hn].
  rewrite filter_cons_True by (simpl; congruence). by rewrite IH.
Qed.

(** The temporary column goes as it came, when the frame has no column
    of that name. *)
Lemma drop_set_col df name s :
  name ∉ column_names df → drop_col (set_col df name s) name = inr df.
Proof.
  intros Hn. unfold drop_col, set_col, column_names. simpl.
  rewrite assign_col_fresh by done.
  rewrite decide_True by (rewrite fmap_app; set_solver).
  rewrite filter_app, filter_names_fresh by done.
  rewrite filter_cons_False by (simpl; auto).
  rewrite filter_nil, app_nil_r.
  by destruct df.
Qed.

Lemma lookup_col_app_r cols1 cols2 name :
  name ∉ cols1.*1 → lookup_col (cols1 ++ cols2) name = lookup_col cols2 name.
Proof.
  induction cols1 as [|[n s0] cols IH]; simpl; [done|].
  intros Hn. rewrite not_elem_of_cons in Hn. destruct Hn as [Hne Hn].
  case_decide; [congruence|]. by apply IH.
Qed.

Lemma lookup_col_app_l cols1 cols2 name s :
  lookup_col cols1 name = Some s → lookup_col (cols1 ++ cols2) name = Some s.
Proof.
  induction cols1 as [|[n s0] cols IH]; simpl; [done|].
  case_decide; [done|]. by apply IH.
Qed.

Lemma lookup_col_fmap (F : Series → Series) cols name :
  lookup_col ((λ c, (c.1, F c.2)) <$> cols) name = F <$> lookup_col cols name.
Proof.
  induction cols as [|[n s0] cols IH]; simpl; [done|].
  case_decide; [done|]. by apply IH.
Qed.

Lemma lookup_col_None cols name : name ∉ cols.*1 → lookup_col cols name = None.
Proof.
  induction cols as [|[n s0] cols IH]; simpl; [done|].
  intros Hn. rewrite not_elem_of_cons in Hn. destruct Hn as [Hne Hn].
  case_decide; [congruence|]. by apply IH.
Qed.

(** With every key equal, the join pairs every left row with every
    right row. *)
Lemma join_locs_const (k : pykey) n m :
  join_locs (replicate n k) (replicate m k) = cross (seq 0 n) (seq 0 m).
Proof.
  unfold join_locs, cross. rewrite !length_replicate.
  apply Forall_bind_ext, Forall_forall. intros i Hi.
  apply Forall_bind_ext, Forall_forall. intros j Hj.
  apply elem_of_seq in Hi, Hj.
  rewrite !lookup_replicate_2 by lia. by rewrite decide_True.
Qed.

Lemma suffixed_disjoint others on_ suffix name :
  (name ≠ on_ → name ∉ others) → suffixed others on_ suffix name = name.
Proof. intros H. unfold suffixed. rewrite decide_False; [done|]. naive_solver. Qed.

Lemma names_fmap_series (F : Series → Series) (cols : list (string * Series)) :
  ((λ c, (c.1, F c.2)) <$> cols).*1 = cols.*1.
Proof. rewrite <-list_fmap_compose. by apply list_fmap_ext. Qed.

Lemma fmap_suffixed_disjoint others on_ suffix (F : Series → Series)
    (cols : list (string * Series)) :
  (∀ n, n ∈ cols.*1 → n ≠ on_ → n ∉ others) →
  (λ c, (suffixed others on_ suffix c.1, F c.2)) <$> cols = (λ c, (c.1, F c.2)) <$> cols.
Proof.
  intros H. apply list_fmap_ext. intros k [n s0] Hk. simpl.
  rewrite suffixed_disjoint; [done|]. apply H.
  apply list_elem_of_fmap. exists (n, s0). split; [done|].
  by apply list_elem_of_lookup_2 in Hk.
Qed.

(** Lines 37-43 on the values: the merge of the two keyed frames with
    the key dropped again is the cross join. *)
Lemma merge_keyed u i :
  "key" ∉ column_names u → "key" ∉ column_names i →
  column_names u ## column_names i →
  bind (merge (keyed u) (keyed i) "key") (λ m, drop_col m "key") = inr (cross_join u i).
Proof.
  intros Hu Hi Hdisj. unfold merge, keyed, set_col, get_col, column_names in *. simpl.
  rewrite !assign_col_fresh by done.
  rewrite !lookup_col_app_r by done. simpl.
  rewrite !fmap_replicate, join_locs_const. simpl.
  rewrite filter_app, filter_names_fresh by done.
  rewrite filter_cons_False by (simpl; auto).
  rewrite filter_nil, app_nil_r.
  rewrite !fmap_suffixed_disjoint.
  2:{ intros n Hn Hne. rewrite fmap_app. set_solver. }
  2:{ intros n Hn Hne. rewrite fmap_app in Hn |- *. set_solver. }
  unfold drop_col, column_names. simpl.
  rewrite decide_True.
  2:{ rewrite !fmap_app. simpl. set_solver. }
  rewrite fmap_app, !filter_app. simpl.
  rewrite filter_cons_False by (simpl; auto).
  rewrite filter_nil, app_nil_r.
  rewrite !filter_names_fresh by (by rewrite names_fmap_series).
  done.
Qed.

Lemma store_same h r df : store h r df r = df.
Proof. unfold store. by rewrite decide_True. Qed.

Lemma store_other h r df r' : r' ≠ r → store h r df r' = h r'.
Proof. intros. unfold store. by rewrite decide_False. Qed.

(** The whole call, for two distinct frames without a [key] column and
    without a common column name: the result is the cross join, filtered
    and shuffled as asked, and every frame of the store is as before. *)
Lemma user_item_pairs_run rng h user_df item_df user_col item_col flt shuffle :
  user_df ≠ item_df →
  "key" ∉ column_names (h user_df) → "key" ∉ column_names (h item_df) →
  column_names (h user_df) ## column_names (h item_df) →
  ∃ h', user_item_pairs rng user_df item_df user_col item_col flt shuffle h =
        (bind (match flt with
               | Some f => filter_by (cross_join (h user_df) (h item_df)) f
                                     [user_col; item_col]
               | None => inr (cross_join (h user_df) (h item_df))
               end)
              (λ users_items,
                 ret (if shuffle then sample_all rng users_items else users_items)),
         h') ∧
        ∀ r, h' r = h r.
Proof.
  intros Hne Hu Hi Hdisj.
  destruct (proj1 (bind_inr _ _ _) (merge_keyed _ _ Hu Hi Hdisj)) as (m & Hm & Hdrop).
  unfold user_item_pairs, setitem_scalar, drop_inplace, bindM, readM, writeM, liftM, retM.
  simpl.
  assert (item_df ≠ user_df) as Hne' by done.
  repeat (rewrite store_same || rewrite store_other by done).
  fold (keyed (h user_df)). fold (keyed (h item_df)).
  rewrite Hm. unfold keyed. rewrite !drop_set_col by done.
  repeat (rewrite store_same || rewrite store_other by done).
  rewrite drop_set_col by done. rewrite Hdrop.
  eexists. split.
  - destruct flt as [f|]; simpl; [|done].
    destruct (filter_by _ _ _); simpl; done.
  - intros r. unfold store.
    repeat case_decide; subst; done.
Qed.

(** *** The pairs of two lists *)

Lemma length_cross {A B} (l : list A) (k : list B) :
  length (cross l k) = (length l * length k)%nat.
Proof.
  unfold cross. induction l as [|a l IH]; [done|].
  rewrite bind_cons, length_app, IH. simpl. f_equal. clear IH.
  induction k as [|b k IHk]; [done|]. rewrite bind_cons. simpl. f_equal. exact IHk.
Qed.

Lemma elem_of_cross {A B} (l : list A) (k : list B) a b :
  (a, b) ∈ cross l k ↔ a ∈ l ∧ b ∈ k.
Proof.
  unfold cross. rewrite list_elem_of_bind. split.
  - intros (a' & (b' & Hin & Hb)%list_elem_of_bind & Ha).
    apply list_elem_of_singleton in Hin. by simplify_eq.
  - intros [Ha Hb]. exists a. split; [|done].
    apply list_elem_of_bind. exists b. split; [|done]. by apply list_elem_of_singleton.
Qed.

Lemma NoDup_cross {A B} (l : list A) (k : list B) :
  NoDup l → NoDup k → NoDup (cross l k).
Proof.
  intros Hl Hk. unfold cross. apply NoDup_bind; [| |done].
  - intros a1 a2 [a b] _ _ (b1 & H1 & _)%list_elem_of_bind (b2 & H2 & _)%list_elem_of_bind.
    apply list_elem_of_singleton in H1, H2. congruence.
  - intros a _. apply NoDup_bind; [| |done].
    + intros b1 b2 y _ _ H1 H2. apply list_elem_of_singleton in H1, H2. congruence.
    + intros b _. apply NoDup_singleton.
Qed.

Lemma cross_fmap {A B A' B'} (f : A → A') (g : B → B') (l : list A) (k : list B) :
  cross (f <$> l) (g <$> k) = (λ p, (f p.1, g p.2)) <$> cross l k.
Proof.
  unfold cross. induction l as [|a l IH]; [done|].
  rewrite fmap_cons, !bind_cons, fmap_app, IH. f_equal.
  clear IH. induction k as [|b k IHk]; [done|].
  rewrite fmap_cons, !bind_cons, fmap_app, IHk. done.
Qed.

Lemma fmap_lookup_total_seq {A} `{!Inhabited A} (l : list A) :
  (λ j, l !!! j) <$> seq 0 (length l) = l.
Proof.
  apply list_eq. intros j. rewrite list_lookup_fmap.
  destruct (decide (j < length l)%nat) as [Hj|Hj].
  - rewrite lookup_seq_lt by done. simpl.
    by rewrite list_lookup_lookup_total_lt.
  - rewrite lookup_seq_ge by lia. simpl. symmetry. apply lookup_ge_None. lia.
Qed.

Lemma omap_lookup_total {A} `{!Inhabited A} (l : list A) (js : list nat) :
  Forall (λ j, (j < length l)%nat) js → omap (λ j, l !! j) js = (λ j, l !!! j) <$> js.
Proof.
  induction 1 as [|j js Hj _ IH]; [done|]. csimpl.
  rewrite list_lookup_lookup_total_lt by done. simpl. f_equal. exact IH.
Qed.

Lemma cross_locs_valid u i :
  Forall (λ p, (p.1 < nrows u)%nat ∧ (p.2 < nrows i)%nat) (cross_locs u i).
Proof.
  apply Forall_forall. intros [a b] [Ha Hb]%elem_of_cross.
  apply elem_of_seq in Ha, Hb. simpl. lia.
Qed.

(** A left column of the cross join repeats each of its cells for every
    right row; a right column is repeated as a whole for every left row. *)
Lemma take_cross_l u i s :
  length (values s) = nrows u →
  values (take (cross_locs u i).*1 s) = (λ p, values s !!! p.1) <$> cross_locs u i.
Proof.
  intros Hlen. unfold take. simpl. rewrite omap_lookup_total.
  - by rewrite <-list_fmap_compose.
  - apply Forall_fmap. eapply Forall_impl; [apply cross_locs_valid|].
    intros p [? _]. simpl. lia.
Qed.

Lemma take_cross_r u i s :
  length (values s) = nrows i →
  values (take (cross_locs u i).*2 s) = (λ p, values s !!! p.2) <$> cross_locs u i.
Proof.
  intros Hlen. unfold take. simpl. rewrite omap_lookup_total.
  - by rewrite <-list_fmap_compose.
  - apply Forall_fmap. eapply Forall_impl; [apply cross_locs_valid|].
    intros p [_ ?]. simpl. lia.
Qed.

Lemma key_at_pair (s1 s2 : Series) N :
  length (values s1) = N → length (values s2) = N →
  key_at [s1; s2] <$> seq 0 N
    = zip_with (λ x y, [key_of x; key_of y]) (values s1) (values s2).
Proof.
  intros Ha Hb. apply list_eq. intros j.
  rewrite list_lookup_fmap, lookup_zip_with.
  destruct (decide (j < N)%nat) as [Hj|Hj].
  - rewrite lookup_seq_lt by done. simpl. unfold key_at. simpl.
    destruct (lookup_lt_is_Some_2 (values s1) j) as [x Hx]; [lia|].
    destruct (lookup_lt_is_Some_2 (values s2) j) as [y Hy]; [lia|].
    by rewrite Hx, Hy.
  - rewrite lookup_seq_ge by lia. simpl.
    rewrite (proj2 (lookup_ge_None (values s1) j)) by lia. done.
Qed.

Lemma wf_frame_length df name s :
  wf_frame df → lookup_col (columns df) name = Some s → length (values s) = nrows df.
Proof.
  intros [_ Hlen] Hs%lookup_col_elem.
  rewrite Forall_forall in Hlen. apply (Hlen _ Hs).
Qed.

Lemma keys_as_seq (vs : list value) :
  key_of <$> vs = (λ j, key_of (vs !!! j)) <$> seq 0 (length vs).
Proof.
  rewrite <-(fmap_lookup_total_seq vs) at 1. by rewrite <-list_fmap_compose.
Qed.

(** The key index of the cross join on a user and an item column: the
    pairs of a user key and an item key, users outermost. *)
Lemma cross_join_keys u i user_col item_col su si :
  wf_frame u → wf_frame i →
  lookup_col (columns u) user_col = Some su →
  lookup_col (columns i) item_col = Some si →
  item_col ∉ column_names u →
  set_index (cross_join u i) [user_col; item_col]
    = inr ((λ p, [p.1; p.2]) <$> cross (key_of <$> values su) (key_of <$> values si)).
Proof.
  intros Hwu Hwi Hsu Hsi Hfresh.
  pose proof (wf_frame_length _ _ _ Hwu Hsu) as Hlu.
  pose proof (wf_frame_length _ _ _ Hwi Hsi) as Hli.
  unfold set_index, get_col, cross_join. simpl.
  rewrite (lookup_col_app_l _ _ _ (take (cross_locs u i).*1 su)).
  2:{ by rewrite lookup_col_fmap, Hsu. }
  simpl. rewrite lookup_col_app_r by (by rewrite names_fmap_series).
  rewrite lookup_col_fmap, Hsi. simpl. f_equal.
  rewrite key_at_pair.
  2:{ by rewrite take_cross_l, length_fmap. }
  2:{ by rewrite take_cross_r, length_fmap. }
  rewrite take_cross_l, take_cross_r by done.
  rewrite zip_with_fmap_l, zip_with_fmap_r, zip_with_diag.
  rewrite !keys_as_seq, cross_fmap, <-list_fmap_compose, Hlu, Hli. done.
Qed.





Lemma lookup_col_name cols name s : lookup_col cols name = Some s → name ∈ cols.*1.
Proof.
  intros Hs%lookup_col_elem. apply list_elem_of_fmap. by exists (name, s).
Qed.

Lemma cross_join_names u i :
  column_names (cross_join u i) = column_names u ++ column_names i.
Proof.
  unfold column_names, cross_join. simpl. by rewrite fmap_app, !names_fmap_series.
Qed.

Lemma key_pair_inj : Inj (=) (=) (λ p : pykey * pykey, [p.1; p.2]).
Proof. intros [a b] [a' b'] [=]. by simplify_eq. Qed.



(** *** Filtered and shuffled frames *)

Lemma set_index_pair df user_col item_col su si :
  lookup_col (columns df) user_col = Some su →
  lookup_col (columns df) item_col = Some si →
  length (values su) = nrows df → length (values si) = nrows df →
  set_index df [user_col; item_col] = inr (zip_with pair_key (values su) (values si)).
Proof.
  intros Hsu Hsi Hlu Hli. unfold set_index, get_col. simpl.
  rewrite Hsu. simpl. rewrite Hsi. simpl. f_equal. by apply key_at_pair.
Qed.

Lemma length_compress {A} (mask : list bool) (l : list A) :
  length mask = length l → length (compress mask l) = count_true mask.
Proof.
  unfold count_true. revert l.
  induction mask as [|b mask IH]; intros [|a l] Hlen; try done.
  simpl in Hlen. destruct b.
  - rewrite filter_cons_True by done. simpl. f_equal. apply IH. lia.
  - rewrite filter_cons_False by done. simpl. apply IH. lia.
Qed.


Lemma compress_fmap_filter {A} (g : A → bool) (l : list A) :
  compress (g <$> l) l = filter (λ x, g x = true) l.
Proof.
  induction l as [|x l IH]; [done|]. rewrite fmap_cons, filter_cons. simpl.
  destruct (decide (g x = true)) as [Hg|Hg].
  - rewrite Hg. f_equal. exact IH.
  - destruct (g x); [done|]. exact IH.
Qed.


Lemma not_isin_filter (index other : list (list pykey)) :
  negb <$> isin index other = (λ k, negb (bool_decide (k ∈ other))) <$> index.
Proof. unfold isin. by rewrite <-list_fmap_compose. Qed.


Lemma keyed_on_set_index df user_col item_col index :
  keyed_on df user_col item_col index →
  set_index df [user_col; item_col] = inr index ∧ length index = nrows df.
Proof.
  intros (su & si & Hsu & Hsi & Hlu & Hli & ->). split.
  - by apply set_index_pair.
  - rewrite length_zip_with. lia.
Qed.

Lemma keyed_on_cross_join u i user_col item_col su si :
  wf_frame u → wf_frame i →
  lookup_col (columns u) user_col = Some su →
  lookup_col (columns i) item_col = Some si →
  item_col ∉ column_names u →
  keyed_on (cross_join u i) user_col item_col
    ((λ p, [p.1; p.2]) <$> cross (key_of <$> values su) (key_of <$> values si)).
Proof.
  intros Hwu Hwi Hsu Hsi Hfresh.
  pose proof (wf_frame_length _ _ _ Hwu Hsu) as Hlu.
  pose proof (wf_frame_length _ _ _ Hwi Hsi) as Hli.
  pose proof (cross_join_keys u i user_col item_col su si Hwu Hwi Hsu Hsi Hfresh) as Hk.
  assert (keyed_on (cross_join u i) user_col item_col
            (zip_with pair_key (values (take (cross_locs u i).*1 su))
                               (values (take (cross_locs u i).*2 si)))) as Hview.
  { exists (take (cross_locs u i).*1 su), (take (cross_locs u i).*2 si).
    split_and!; [| | | |done].
    - unfold cross_join. simpl.
      apply lookup_col_app_l. by rewrite lookup_col_fmap, Hsu.
    - unfold cross_join. simpl.
      rewrite lookup_col_app_r by (by rewrite names_fmap_series).
      by rewrite lookup_col_fmap, Hsi.
    - by rewrite take_cross_l, length_fmap.
    - by rewrite take_cross_r, length_fmap. }
  destruct (keyed_on_set_index _ _ _ _ Hview) as [Hk' _].
  rewrite Hk in Hk'. injection Hk' as Hk'. by rewrite Hk'.
Qed.



(** Gathering the rows by a permutation of the positions permutes the
    key index. *)
Lemma keyed_on_take_rows df locs user_col item_col index :
  keyed_on df user_col item_col index →
  locs ≡ₚ seq 0 (nrows df) →
  ∃ index', keyed_on (take_rows df locs) user_col item_col index' ∧ index' ≡ₚ index.
Proof.
  intros (su & si & Hsu & Hsi & Hlu & Hli & ->) Hperm.
  assert (Forall (λ j, (j < nrows df)%nat) locs) as Hvalid.
  { apply Forall_forall. intros j Hj. rewrite Hperm in Hj.
    apply elem_of_seq in Hj. lia. }
  eexists. split.
  - exists (take locs su), (take locs si).
    unfold take_rows, take. simpl. split_and!; [| | | |done].
    + by rewrite (lookup_col_fmap (take locs)), Hsu.
    + by rewrite (lookup_col_fmap (take locs)), Hsi.
    + rewrite omap_lookup_total by (by rewrite Hlu). by rewrite length_fmap.
    + rewrite omap_lookup_total by (by rewrite Hli). by rewrite length_fmap.
  - rewrite !omap_lookup_total by (by rewrite ?Hlu, ?Hli).
    rewrite zip_with_fmap_l, zip_with_fmap_r, zip_with_diag, Hperm.
    pose proof (fmap_lookup_total_seq (values su)) as Eu. rewrite Hlu in Eu.
    pose proof (fmap_lookup_total_seq (values si)) as Ei. rewrite Hli in Ei.
    transitivity (zip_with pair_key ((λ j, values su !!! j) <$> seq 0 (nrows df))
                                    ((λ j, values si !!! j) <$> seq 0 (nrows df)));
      [|by rewrite Eu, Ei].
    by rewrite zip_with_fmap_l, zip_with_fmap_r, zip_with_diag.
Qed.




(** C7, at a user frame with a column called [key] -- the call returns,
    and the caller's user frame has lost its [key] column; the result
    does not have it either. *)
Theorem user_item_pairs_drops_key_column rng :
  let r := user_item_pairs rng 0 1 "userID" "itemID" None false
                           (two_frames users_with_key items2) in
  (∃ out, r.1 = inr out ∧ column_names out = ["userID"; "itemID"; "genre"]) ∧
  two_frames users_with_key items2 0%nat = users_with_key ∧
  r.2 0%nat = mkDF 2 [("userID", mkSeries (DInt 64) [VInt 1; VInt 2])] ∧
  r.2 0%nat ≠ users_with_key.
Proof.
  simpl. split; [|split; [|split]].
  - eexists. split; [reflexivity|]. reflexivity.
  - reflexivity.
  - reflexivity.
  - discriminate.
Qed.

End PairsFacts.

(** ** negative_feedback_sampler *)

Section SamplerFacts.
Import Sampler.

(** *** Filters *)

Lemma filter_all {A} (P : A → Prop) `{!∀ x, Decision (P x)} (l : list A) :
  Forall P l → filter P l = l.
Proof.
  induction 1 as [|x l Hx _ IH]; [done|]. rewrite filter_cons_True by done.
  f_equal. exact IH.
Qed.

Lemma filter_none {A} (P : A → Prop) `{!∀ x, Decision (P x)} (l : list A) :
  Forall (λ x, ¬ P x) l → filter P l = [].
Proof.
  induction 1 as [|x l Hx _ IH]; [done|]. rewrite filter_cons_False by done.
  exact IH.
Qed.

(** *** unique *)

Lemma elem_of_unique_from seen l x :
  x ∈ unique_from seen l ↔ x ∈ l ∧ x ∉ seen.
Proof.
  revert seen. induction l as [|y l IH]; intros seen; simpl.
  - rewrite elem_of_nil. tauto.
  - case_decide as Hy.
    + rewrite IH, elem_of_cons. split; [tauto|]. intros [[->|?] ?]; tauto.
    + rewrite elem_of_cons, IH, !elem_of_cons.
      destruct (decide (x = y)) as [->|Hne]; tauto.
Qed.

Lemma NoDup_unique_from seen l : NoDup (unique_from seen l).
Proof.
  revert seen. induction l as [|y l IH]; intros seen; simpl; [constructor|].
  case_decide; [apply IH|]. constructor; [|apply IH].
  rewrite elem_of_unique_from, not_elem_of_cons. tauto.
Qed.

Lemma elem_of_unique l x : x ∈ unique l ↔ x ∈ l.
Proof. unfold unique. rewrite elem_of_unique_from, elem_of_nil. tauto. Qed.

Lemma NoDup_unique l : NoDup (unique l).
Proof. apply NoDup_unique_from. Qed.

(** *** Rows by key *)

(** In a list made key by key from distinct keys, the rows of one key
    are the rows made from it. *)
Lemma filter_bind_key {A} (key : A → Z) (g : Z → list A) (l : list Z) (x : Z) :
  (∀ y r, r ∈ g y → key r = y) → NoDup l →
  filter (λ r, key r = x) (l ≫= g) = if decide (x ∈ l) then g x else [].
Proof.
  intros Hkey. induction 1 as [|y l Hy Hnd IH]; [done|].
  rewrite bind_cons, filter_app, IH.
  destruct (decide (x = y)) as [->|Hne].
  - rewrite decide_False by done. rewrite decide_True by left.
    rewrite app_nil_r. apply filter_all, Forall_forall.
    intros r Hr. by apply Hkey in Hr.
  - assert (filter (λ r, key r = x) (g y) = []) as ->.
    { apply filter_none, Forall_forall. 
      intros r Hr Hx. apply Hkey in Hr. congruence. }
    simpl. destruct (decide (x ∈ l)).
    + by rewrite decide_True by (by right).
    + rewrite decide_False; [done|]. rewrite not_elem_of_cons. tauto.
Qed.

Lemma user_item_feedback_rows users items tuples :
  user_item_feedback users items tuples = users ≫= rows_of_user items tuples.
Proof. reflexivity. Qed.

Lemma elem_of_rows_of_user items tuples user r :
  r ∈ rows_of_user items tuples user ↔
  user_of r = user ∧ item_of r ∈ items ∧ rating_of r = feedback_of tuples user (item_of r).
Proof.
  unfold rows_of_user. rewrite list_elem_of_bind. split.
  - intros (i & ->%list_elem_of_singleton & Hi). done.
  - destruct r as [[u i] f]. unfold user_of, item_of, rating_of. simpl.
    intros (-> & Hi & ->). exists i. split; [|done]. by apply list_elem_of_singleton.
Qed.

Lemma elem_of_user_item_feedback users items tuples r :
  r ∈ user_item_feedback users items tuples ↔
  user_of r ∈ users ∧ item_of r ∈ items ∧
  rating_of r = feedback_of tuples (user_of r) (item_of r).
Proof.
  rewrite user_item_feedback_rows, list_elem_of_bind. split.
  - intros (u & (<- & ? & ?)%elem_of_rows_of_user & Hu). done.
  - intros (Hu & Hi & Hf). exists (user_of r). split; [|done].
    by apply elem_of_rows_of_user.
Qed.

Lemma NoDup_rows_of_user items tuples user :
  NoDup items → NoDup (rows_of_user items tuples user).
Proof.
  intros Hnd. unfold rows_of_user. apply NoDup_bind; [| |done].
  - intros i1 i2 r _ _ ->%list_elem_of_singleton [=]%list_elem_of_singleton. done.
  - intros i _. apply NoDup_singleton.
Qed.

Lemma NoDup_user_item_feedback users items tuples :
  NoDup users → NoDup items → NoDup (user_item_feedback users items tuples).
Proof.
  intros Hu Hi. rewrite user_item_feedback_rows. apply NoDup_bind; [| |done].
  - intros u1 u2 r _ _ (<- & _)%elem_of_rows_of_user (<- & _)%elem_of_rows_of_user. done.
  - intros u _. by apply NoDup_rows_of_user.
Qed.

Lemma filter_comm {A} (P Q : A → Prop) `{!∀ x, Decision (P x)} `{!∀ x, Decision (Q x)}
    (l : list A) :
  filter P (filter Q l) = filter Q (filter P l).
Proof. rewrite !list_filter_filter. apply list_filter_iff. tauto. Qed.

(** The group of a user in the negatives of [df_all]. *)
Lemma group_negatives users items tuples user :
  NoDup users →
  group (filter (λ r, rating_of r = 0) (user_item_feedback users items tuples)) user
    = if decide (user ∈ users) then negatives_of items tuples user else [].
Proof.
  intros Hnd. unfold group, negatives_of.
  rewrite filter_comm, user_item_feedback_rows.
  rewrite (filter_bind_key user_of) by
    (done || by intros y r (? & _)%elem_of_rows_of_user).
  by case_decide.
Qed.

Lemma elem_of_group_keys rows user :
  user ∈ group_keys rows ↔ ∃ r, r ∈ rows ∧ user_of r = user.
Proof.
  unfold group_keys. rewrite merge_sort_Permutation, elem_of_unique, list_elem_of_fmap.
  naive_solver.
Qed.

Lemma NoDup_group_keys rows : NoDup (group_keys rows).
Proof. unfold group_keys. rewrite merge_sort_Permutation. apply NoDup_unique. Qed.

Lemma Sorted_group_keys rows : Sorted Z.le (group_keys rows).
Proof. unfold group_keys. apply (Sorted_merge_sort Z.le). Qed.

(** The groups are those of the users of [df_all] that have a negative. *)
Lemma elem_of_group_keys_negatives users items tuples user :
  user ∈ group_keys (filter (λ r, rating_of r = 0) (user_item_feedback users items tuples))
  ↔ user ∈ users ∧ negatives_of items tuples user ≠ [].
Proof.
  rewrite elem_of_group_keys. unfold negatives_of. split.
  - intros (r & [Hr Hin]%list_elem_of_filter & <-).
    apply elem_of_user_item_feedback in Hin as (Hu & Hi & Hf).
    split; [done|]. intros Hnil.
    assert (r ∈ filter (λ r, rating_of r = 0) (rows_of_user items tuples (user_of r)))
      as Hr'; [|by rewrite Hnil in Hr'; apply elem_of_nil in Hr'].
    apply list_elem_of_filter. split; [done|]. by apply elem_of_rows_of_user.
  - intros [Hu Hne].
    destruct (filter _ (rows_of_user items tuples user)) as [|r l] eqn:Hl; [done|].
    assert (r ∈ r :: l) as Hr by left. rewrite <-Hl in Hr.
    apply list_elem_of_filter in Hr as [Hr (<- & Hi & Hf)%elem_of_rows_of_user].
    exists r. split; [|done]. apply list_elem_of_filter. split; [done|].
    by apply elem_of_user_item_feedback.
Qed.

(** *** The error monad on lists *)

Lemma mapR_ext {A B} (f g : A → result B) l :
  (∀ x, x ∈ l → f x = g x) → mapR f l = mapR g l.
Proof.
  induction l as [|x l IH]; intros H; simpl; [done|].
  rewrite (H x) by left. rewrite IH; [done|]. intros y Hy. apply H. by right.
Qed.

Lemma mapR_ret {A B} (g : A → B) l : mapR (λ x, ret (g x)) l = inr (g <$> l).
Proof. induction l as [|x l IH]; simpl; [done|]. by rewrite IH. Qed.

Lemma mapR_inr {A B} (f : A → result B) l bs :
  mapR f l = inr bs → Forall2 (λ x b, f x = inr b) l bs.
Proof.
  revert bs. induction l as [|x l IH]; intros bs; simpl.
  - intros [= <-]. constructor.
  - intros (b & Hb & (bs' & Hbs & [= <-])%bind_inr)%bind_inr.
    constructor; [done|]. by apply IH.
Qed.

(** *** The order of the rows *)

#[local] Instance row_le_total : Total row_le.
Proof. intros a b. unfold row_le. lia. Qed.

#[local] Instance row_le_trans : Transitive row_le.
Proof. intros a b c. unfold row_le. lia. Qed.

Lemma Sorted_sort_values rows : Sorted row_le (sort_values rows).
Proof. apply (Sorted_merge_sort row_le). Qed.

Lemma sort_values_Permutation rows : sort_values rows ≡ₚ rows.
Proof. apply merge_sort_Permutation. Qed.

(** Two lists with the same rows, none of which agree on user and item
    without being equal, sort to the same list. *)
Lemma sort_values_unique l1 l2 :
  l1 ≡ₚ l2 →
  (∀ a b, a ∈ l1 → b ∈ l1 → user_of a = user_of b → item_of a = item_of b → a = b) →
  sort_values l1 = sort_values l2.
Proof.
  intros Hperm Hinj.
  apply (Sorted_unique_strong row_le); try apply Sorted_sort_values.
  - intros a b Ha Hb Hab Hba.
    rewrite sort_values_Permutation in Ha. rewrite sort_values_Permutation, <-Hperm in Hb.
    apply Hinj; try done; unfold row_le in *; lia.
  - by rewrite !sort_values_Permutation.
Qed.

(** *** The shape of the result *)

Lemma sample_negatives_feedback choice users items tuples n seed :
  NoDup users →
  let df_all := user_item_feedback users items tuples in
  let df_pos := filter (λ r, rating_of r = 1) df_all in
  let df_neg := filter (λ r, rating_of r = 0) df_all in
  sample_negatives choice df_all n seed =
    bind (mapR (λ user, let x := negatives_of items tuples user in
                        sample choice x (Z.min n (Z.of_nat (length x))) seed)
               (group_keys df_neg))
         (λ groups, ret (sort_values (df_pos ++ mjoin groups))).
Proof.
  intros Hnd df_all df_pos df_neg. unfold sample_negatives.
  fold df_all. fold df_pos. fold df_neg. f_equal.
  apply mapR_ext. intros user Hu.
  apply elem_of_group_keys_negatives in Hu as [Hu _].
  unfold df_neg, df_all. rewrite group_negatives by done.
  by rewrite decide_True.
Qed.

Lemma sample_nonneg choice x n seed :
  0 ≤ n →
  sample choice x (Z.min n (Z.of_nat (length x))) seed
    = inr (omap (λ p, x !! p)
                (choice seed (length x) (Z.to_nat (Z.min n (Z.of_nat (length x)))))).
Proof. intros Hn. unfold sample. rewrite decide_False by lia. done. Qed.

(** With a count that is not negative the call returns: the positives
    and, group after group, the picked negatives, sorted. *)
Lemma sample_negatives_nonneg choice users items tuples n seed :
  NoDup users → 0 ≤ n →
  let df_all := user_item_feedback users items tuples in
  sample_negatives choice df_all n seed =
    inr (sort_values
           (filter (λ r, rating_of r = 1) df_all ++
            mjoin (picked choice items tuples n seed
                     <$> group_keys (filter (λ r, rating_of r = 0) df_all)))).
Proof.
  intros Hnd Hn df_all. unfold df_all.
  rewrite sample_negatives_feedback by done.
  rewrite (mapR_ext _ (λ user, ret (picked choice items tuples n seed user))).
  - by rewrite mapR_ret.
  - intros user _. simpl. by rewrite sample_nonneg.
Qed.





Lemma icol_columns_present (df : IntFrame) col_user col_item :
  col_user ∈ icolumn_names df → col_item ∈ icolumn_names df →
  ∀ choice n seed,
    negative_feedback_sampler choice df col_user col_item n seed =
    bind (sampled_rows choice (icol (icolumns df) col_user) (icol (icolumns df) col_item)
                       n seed)
         (λ rows, ret (frame_of_rows col_user col_item rows)).
Proof.
  intros Hu Hi choice n seed. unfold negative_feedback_sampler.
  rewrite decide_False by (by intros ?). rewrite decide_False by (by intros ?). done.
Qed.



(** *** Counting the negatives *)




Section Drawn.
Context (choice : Z → nat → nat → list nat) (Hchoice : valid_choice choice).



End Drawn.






(** *** The result as a function of the users, the items and the pairs *)

Lemma user_item_feedback_ext users items tuples1 tuples2 :
  (∀ p, p ∈ tuples1 ↔ p ∈ tuples2) →
  user_item_feedback users items tuples1 = user_item_feedback users items tuples2.
Proof.
  intros Hp. unfold user_item_feedback.
  apply list_bind_ext; [|done]. intros u.
  apply list_bind_ext; [|done]. intros i.
  by rewrite (bool_decide_ext _ _ (Hp (u, i))).
Qed.

Lemma sample_inr_subset choice x n seed g r :
  sample choice x n seed = inr g → r ∈ g → r ∈ x.
Proof.
  unfold sample. case_decide; [done|]. intros [= <-].
  rewrite list_elem_of_omap. intros (p & _ & Hp). by apply list_elem_of_lookup_2 in Hp.
Qed.

Lemma rating_negatives_of items tuples user r :
  r ∈ negatives_of items tuples user →
  rating_of r = feedback_of tuples (user_of r) (item_of r).
Proof.
  unfold negatives_of. rewrite list_elem_of_filter, elem_of_rows_of_user.
  intros (_ & <- & _ & Hf). done.
Qed.

Lemma row_eq_by_rating (f : Z → Z → Z) (a b : row) :
  rating_of a = f (user_of a) (item_of a) →
  rating_of b = f (user_of b) (item_of b) →
  user_of a = user_of b → item_of a = item_of b → a = b.
Proof.
  destruct a as [[u i] x], b as [[u' i'] x'].
  unfold user_of, item_of, rating_of. simpl. intros -> -> -> ->. done.
Qed.

(** The order in which the users first appear does not matter. *)
Lemma sample_negatives_users choice users1 users2 items tuples n seed :
  NoDup users1 → NoDup users2 → (∀ u, u ∈ users1 ↔ u ∈ users2) → NoDup items →
  sample_negatives choice (user_item_feedback users1 items tuples) n seed
    = sample_negatives choice (user_item_feedback users2 items tuples) n seed.
Proof.
  intros Hnd1 Hnd2 Hsame Hndi.
  rewrite !sample_negatives_feedback by done.
  set (df_all1 := user_item_feedback users1 items tuples).
  set (df_all2 := user_item_feedback users2 items tuples).
  assert (group_keys (filter (λ r, rating_of r = 0) df_all1)
          = group_keys (filter (λ r, rating_of r = 0) df_all2)) as Hkeys.
  { apply (Sorted_unique Z.le); try apply Sorted_group_keys.
    apply NoDup_Permutation; try apply NoDup_group_keys.
    intros u. unfold df_all1, df_all2.
    rewrite !elem_of_group_keys_negatives, Hsame. done. }
  rewrite Hkeys.
  destruct (mapR _ (group_keys (filter _ df_all2))) as [e|groups] eqn:Hgroups; [done|].
  simpl. f_equal. apply sort_values_unique.
  - apply Permutation_app_tail, (filter_Permutation _).
    apply NoDup_Permutation; try (by apply NoDup_user_item_feedback).
    intros r. unfold df_all1, df_all2.
    rewrite !elem_of_user_item_feedback, Hsame. done.
  - assert (∀ r, r ∈ filter (λ r, rating_of r = 1) df_all1 ++ mjoin groups →
              rating_of r = feedback_of tuples (user_of r) (item_of r)) as Hrating.
    { intros r [[_ Hr]%list_elem_of_filter|Hr]%elem_of_app.
      - by apply elem_of_user_item_feedback in Hr as (_ & _ & ?).
      - apply list_elem_of_join in Hr as (g & Hr & Hg).
        apply mapR_inr in Hgroups.
        apply list_elem_of_lookup in Hg as [j Hj].
        destruct (Forall2_lookup_r _ _ _ _ _ Hgroups Hj) as (u & _ & Hs).
        simpl in Hs. eapply rating_negatives_of, sample_inr_subset; done. }
    intros a b Ha Hb. apply (row_eq_by_rating (feedback_of tuples)); by apply Hrating.
Qed.

Lemma elem_of_U df col_user u : u ∈ U df col_user ↔ u ∈ icol (icolumns df) col_user.
Proof. unfold U. by rewrite elem_of_list_to_set. Qed.

Lemma elem_of_S df col_user col_item p :
  p ∈ S df col_user col_item ↔
  p ∈ zip (icol (icolumns df) col_user) (icol (icolumns df) col_item).
Proof. unfold S. by rewrite elem_of_list_to_set. Qed.

(** C3, as the code has it -- with the same seed, two frames that have
    both id columns, the same set of users, the same set of observed
    pairs and the same items in the same order of first appearance give
    the same result. *)
Theorem negative_feedback_sampler_same_sets choice df1 df2 col_user col_item n seed :
  col_user ∈ icolumn_names df1 → col_item ∈ icolumn_names df1 →
  col_user ∈ icolumn_names df2 → col_item ∈ icolumn_names df2 →
  U df1 col_user = U df2 col_user →
  S df1 col_user col_item = S df2 col_user col_item →
  unique (icol (icolumns df1) col_item) = unique (icol (icolumns df2) col_item) →
  negative_feedback_sampler choice df1 col_user col_item n seed
    = negative_feedback_sampler choice df2 col_user col_item n seed.
Proof.
  intros Hu1 Hi1 Hu2 Hi2 HU HS Hitems.
  rewrite !icol_columns_present by done. f_equal.
  unfold sampled_rows. rewrite Hitems.
  rewrite (user_item_feedback_ext _ _
             (zip (icol (icolumns df1) col_user) (icol (icolumns df1) col_item))
             (zip (icol (icolumns df2) col_user) (icol (icolumns df2) col_item))).
  2:{ intros p. by rewrite <-!elem_of_S, HS. }
  apply sample_negatives_users; try apply NoDup_unique.
  intros u. by rewrite !elem_of_unique, <-!elem_of_U, HU.
Qed.

Lemma negative_feedback_sampler_same_sets_witness :
  negative_feedback_sampler first_n df3 "userID" "itemID" 1 42
    = negative_feedback_sampler first_n
        (mkIF 4 [ ("itemID", [1; 2; 3; 1]); ("userID", [1; 2; 3; 1]) ])
        "userID" "itemID" 1 42.
Proof.
  apply negative_feedback_sampler_same_sets.
  - by apply (bool_decide_unpack _).
  - by apply (bool_decide_unpack _).
  - by apply (bool_decide_unpack _).
  - by apply (bool_decide_unpack _).
  - apply set_eq. intros u. rewrite !elem_of_U. simpl. set_solver.
  - apply set_eq. intros p. rewrite !elem_of_S. simpl. set_solver.
  - reflexivity.
Defined.

Lemma sampler_choice_ext choice1 choice2 df col_user col_item n seed :
  (∀ len k, choice1 seed len k = choice2 seed len k) →
  negative_feedback_sampler choice1 df col_user col_item n seed
    = negative_feedback_sampler choice2 df col_user col_item n seed.
Proof.
  intros Hc. unfold negative_feedback_sampler, sampled_rows, sample_negatives.
  repeat case_decide; try done. do 2 f_equal.
  apply mapR_ext. intros u _. simpl. unfold sample. by rewrite Hc.
Qed.

(** C3, as stated, fails for every generator that draws without
    replacement: [df3] and [df3_rev] have the same users, items and
    pairs, and with one negative per user and the same seed their results
    differ, because the position drawn among the two negatives of a user
    names a different item in each. *)
Lemma negative_feedback_sampler_row_order :
  ¬ ∃ choice, valid_choice choice ∧
      ∀ seed df1 df2 col_user col_item n,
        U df1 col_user = U df2 col_user →
        I df1 col_item = I df2 col_item →
        S df1 col_user col_item = S df2 col_user col_item →
        negative_feedback_sampler choice df1 col_user col_item n seed
          = negative_feedback_sampler choice df2 col_user col_item n seed.
Proof.
  intros (choice & Hvalid & Hsame).
  specialize (Hsame 42 df3 df3_rev "userID" "itemID" 1).
  assert (negative_feedback_sampler choice df3 "userID" "itemID" 1 42
          = negative_feedback_sampler choice df3_rev "userID" "itemID" 1 42) as Heq.
  { apply Hsame; apply set_eq; intros x;
      rewrite ?elem_of_U, ?elem_of_S; unfold I; rewrite ?elem_of_list_to_set;
      simpl; set_solver. }
  clear Hsame.
  destruct (Hvalid 42 2%nat 1%nat) as (Hlen & _ & Hlt); [lia|].
  destruct (choice 42 2%nat 1%nat) as [|p [|q l]] eqn:Hc; try done.
  rewrite Forall_singleton in Hlt.
  set (choice' := λ (seed : Z) (len k : nat),
         if decide (seed = 42 ∧ len = 2%nat ∧ k = 1%nat) then [p] else choice seed len k).
  assert (∀ len k, choice 42 len k = choice' 42 len k) as Hext.
  { intros len k. unfold choice'. case_decide as Hd; [|done].
    destruct Hd as (_ & -> & ->). done. }
  rewrite !(sampler_choice_ext choice choice') in Heq by done.
  assert (p = 0 ∨ p = 1)%nat as [-> | ->] by lia.
  - vm_compute in Heq. discriminate Heq.
  - vm_compute in Heq. discriminate Heq.
Qed.

End SamplerFacts.

(** * Further properties *)

(** ** negative_feedback_sampler: errors, labels and exhaustive sampling *)

Section SamplerMore.
Import Sampler.

(** With a count that is not negative the call fails exactly when an id
    column is missing; the error names the user column when that one is
    missing, and the item column otherwise. *)
Lemma negative_feedback_sampler_errors choice df col_user col_item n seed :
  0 ≤ n →
  (col_user ∉ icolumn_names df →
     negative_feedback_sampler choice df col_user col_item n seed
       = inl (ValueError ("Column " +:+ col_user +:+ " is not in the dataframe"))) ∧
  (col_user ∈ icolumn_names df → col_item ∉ icolumn_names df →
     negative_feedback_sampler choice df col_user col_item n seed
       = inl (ValueError ("Column " +:+ col_item +:+ " is not in the dataframe"))) ∧
  ((∃ out, negative_feedback_sampler choice df col_user col_item n seed = inr out) ↔
     col_user ∈ icolumn_names df ∧ col_item ∈ icolumn_names df).
Proof.
  intros Hn. split; [|split].
  - intros Hu. unfold negative_feedback_sampler. by rewrite decide_True.
  - intros Hu Hi. unfold negative_feedback_sampler.
    rewrite decide_False by (by intros ?). by rewrite decide_True.
  - split.
    + intros [out Hout]. unfold negative_feedback_sampler in Hout.
      destruct (decide (col_user ∉ icolumn_names df)) as [|Hu]; [done|].
      destruct (decide (col_item ∉ icolumn_names df)) as [|Hi]; [done|].
      split; by apply dec_stable.
    + intros [Hu Hi]. rewrite icol_columns_present by done.
      unfold sampled_rows.
      rewrite sample_negatives_nonneg by (apply NoDup_unique || done).
      by eexists.
Qed.

Lemma negative_feedback_sampler_errors_witness :
  negative_feedback_sampler first_n df3 "user" "itemID" 1 42
    = inl (ValueError "Column user is not in the dataframe").
Proof.
  destruct (negative_feedback_sampler_errors first_n df3 "user" "itemID" 1 42)
    as (Hu & _ & _).
  - lia.
  - apply Hu. by apply (bool_decide_unpack _).
Defined.







(** *** Asking for at least as many negatives as there are items *)








End SamplerMore.

(** ** filter_by: errors, the keys it keeps, idempotence *)

Section FilterMore.
Import Pairs.

Lemma get_col_missing df name : name ∉ column_names df → get_col df name = inl (KeyError name).
Proof. intros H. unfold get_col. by rewrite lookup_col_None. Qed.

(** The first missing column is the one the key error names. *)
Lemma mapR_get_col_missing df pre c post :
  pre ⊆ column_names df → c ∉ column_names df →
  mapR (get_col df) (pre ++ c :: post) = inl (KeyError c).
Proof.
  induction pre as [|p pre IH]; intros Hpre Hc; simpl.
  - by rewrite get_col_missing.
  - destruct (get_col_Some df p) as (s & -> & _); [set_solver|]. simpl.
    rewrite IH; [done| |done]. set_solver.
Qed.

Lemma set_index_missing df pre c post :
  pre ⊆ column_names df → c ∉ column_names df →
  set_index df (pre ++ c :: post) = inl (KeyError c).
Proof. intros. unfold set_index. by rewrite mapR_get_col_missing. Qed.

(** [filter_by] fails exactly when a key column is missing from one of
    the two frames, with a key error for the first key column that the
    source lacks, or else for the first one that the filter frame lacks. *)
Lemma filter_by_key_error df filter_by_df pre c post :
  pre ⊆ column_names df →
  (c ∉ column_names df →
     filter_by df filter_by_df (pre ++ c :: post) = inl (KeyError c)) ∧
  (pre ++ c :: post ⊆ column_names df →
   pre ⊆ column_names filter_by_df → c ∉ column_names filter_by_df →
     filter_by df filter_by_df (pre ++ c :: post) = inl (KeyError c)) ∧
  (pre ++ c :: post ⊆ column_names df →
   pre ++ c :: post ⊆ column_names filter_by_df →
     ∃ out, filter_by df filter_by_df (pre ++ c :: post) = inr out).
Proof.
  intros Hpre. split; [|split].
  - intros Hc. unfold filter_by. by rewrite set_index_missing.
  - intros Hall Hpre' Hc.
    destruct (set_index_ok df _ Hall) as (index & Hindex & _).
    unfold filter_by. rewrite Hindex. simpl. by rewrite set_index_missing.
  - intros Hall Hall'.
    destruct (set_index_ok df _ Hall) as (index & Hindex & _).
    destruct (set_index_ok filter_by_df _ Hall') as (other & Hother & _).
    unfold filter_by. rewrite Hindex, Hother. simpl. by eexists.
Qed.

Lemma filter_by_key_error_witness :
  filter_by users3 seen2 ["userID"; "itemID"] = inl (KeyError "itemID").
Proof.
  destruct (filter_by_key_error users3 seen2 ["userID"] "itemID" []) as (Hc & _ & _).
  - by apply (bool_decide_unpack _).
  - apply Hc. by apply (bool_decide_unpack _).
Defined.

(** *** The index of a masked frame *)

Lemma key_at_S ss i : key_at ss (S i) = key_at (tail_series <$> ss) i.
Proof.
  unfold key_at. induction ss as [|s ss IH]; [done|]. csimpl.
  rewrite lookup_tail, IH. done.
Qed.

Lemma key_at_seq_S ss n :
  key_at ss <$> seq 0 (S n) = key_at ss 0 :: (key_at (tail_series <$> ss) <$> seq 0 n).
Proof.
  simpl. f_equal. rewrite <-fmap_S_seq, <-list_fmap_compose.
  apply list_fmap_ext. intros _ i _. simpl. apply key_at_S.
Qed.

Lemma count_true_cons b mask :
  count_true (b :: mask) = if b then S (count_true mask) else count_true mask.
Proof.
  unfold count_true. destruct b.
  - by rewrite filter_cons_True.
  - by rewrite filter_cons_False.
Qed.

Lemma mask_series_true mask ss :
  Forall (λ s, length (values s) = S (length mask)) ss →
  tail_series <$> (mask_series (true :: mask) <$> ss)
    = mask_series mask <$> (tail_series <$> ss).
Proof.
  intros Hlen. rewrite <-!list_fmap_compose. apply list_fmap_ext. intros j s Hj. simpl.
  rewrite Forall_forall in Hlen.
  pose proof (Hlen s (list_elem_of_lookup_2 _ _ _ Hj)) as Hs.
  unfold tail_series, mask_series. simpl. by destruct (values s).
Qed.

Lemma mask_series_false mask ss :
  Forall (λ s, length (values s) = S (length mask)) ss →
  mask_series (false :: mask) <$> ss = mask_series mask <$> (tail_series <$> ss).
Proof.
  intros Hlen. rewrite <-!list_fmap_compose. apply list_fmap_ext. intros j s Hj. simpl.
  rewrite Forall_forall in Hlen.
  pose proof (Hlen s (list_elem_of_lookup_2 _ _ _ Hj)) as Hs.
  unfold tail_series, mask_series. simpl. by destruct (values s).
Qed.

Lemma key_at_mask_true mask ss :
  Forall (λ s, length (values s) = S (length mask)) ss →
  key_at (mask_series (true :: mask) <$> ss) 0 = key_at ss 0.
Proof.
  unfold key_at. induction 1 as [|s ss Hs _ IH]; [done|]. csimpl.
  rewrite IH. by destruct (values s).
Qed.

Lemma key_at_compress mask ss :
  Forall (λ s, length (values s) = length mask) ss →
  key_at (mask_series mask <$> ss) <$> seq 0 (count_true mask)
    = compress mask (key_at ss <$> seq 0 (length mask)).
Proof.
  revert ss. induction mask as [|b mask IH]; intros ss Hlen; [done|].
  assert (Forall (λ s, length (values s) = length mask) (tail_series <$> ss)) as Hlen'.
  { apply Forall_fmap. eapply Forall_impl; [exact Hlen|].
    intros s Hs. simpl in *. destruct (values s); simpl in *; [done|lia]. }
  change (length (b :: mask)) with (S (length mask)) in *.
  rewrite key_at_seq_S, count_true_cons.
  destruct b.
  - rewrite key_at_seq_S, mask_series_true, key_at_mask_true, IH by done.
    reflexivity.
  - rewrite mask_series_false, IH by done. reflexivity.
Qed.

Lemma mapR_get_col_inr df cols ss :
  mapR (get_col df) cols = inr ss →
  Forall2 (λ c s, lookup_col (columns df) c = Some s) cols ss.
Proof.
  intros H%mapR_inr. eapply Forall2_impl; [exact H|].
  intros c s. unfold get_col. by destruct (lookup_col _ _); intros [=]; subst.
Qed.

Lemma mapR_get_col_loc_mask df mask cols ss :
  mapR (get_col df) cols = inr ss →
  mapR (get_col (loc_mask df mask)) cols = inr (mask_series mask <$> ss).
Proof.
  revert ss. induction cols as [|c cols IH]; intros ss; simpl.
  - by intros [= <-].
  - intros (s & Hs & (ss' & Hss & [= <-])%bind_inr)%bind_inr.
    rewrite (IH _ Hss). unfold get_col in *. unfold loc_mask at 1. simpl.
    rewrite (lookup_col_fmap (mask_series mask)).
    destruct (lookup_col (columns df) c) as [s0|]; simpl in *; [|discriminate Hs].
    injection Hs as ->. done.
Qed.

Lemma filter_by_wf df mask :
  wf_frame df → length mask = nrows df →
  wf_frame (loc_mask df mask) ∧ column_names (loc_mask df mask) = column_names df.
Proof.
  intros [Hnd Hlen] Hm.
  assert (column_names (loc_mask df mask) = column_names df) as Hnames.
  { unfold column_names, loc_mask. simpl.
    apply (names_fmap_series (mask_series mask)). }
  split; [|done]. split; [by rewrite Hnames|].
  unfold loc_mask. simpl. apply Forall_fmap.
  eapply Forall_impl; [exact Hlen|]. intros c Hc. simpl.
  apply length_compress. congruence.
Qed.

Lemma set_index_loc_mask_cols df mask cols ss :
  wf_frame df → mapR (get_col df) cols = inr ss → length mask = nrows df →
  set_index (loc_mask df mask) cols
    = inr (compress mask (key_at ss <$> seq 0 (nrows df))).
Proof.
  intros Hwf Hss Hm.
  unfold set_index. rewrite (mapR_get_col_loc_mask _ _ _ _ Hss). simpl. f_equal.
  change (nrows (loc_mask df mask)) with (count_true mask).
  rewrite key_at_compress; [by rewrite Hm|].
  apply mapR_get_col_inr in Hss. destruct Hwf as [_ Hcols].
  rewrite Forall_forall in Hcols.
  apply Forall_forall. intros s Hs.
  apply list_elem_of_lookup in Hs as [j Hj].
  destruct (Forall2_lookup_r _ _ _ _ _ Hss Hj) as (c & _ & Hc).
  apply lookup_col_elem in Hc. rewrite Hm. apply (Hcols _ Hc).
Qed.



(** X4 -- filtering the result once more by the same frame changes nothing. *)
Theorem filter_by_idempotent df filter_by_df filter_by_cols out :
  wf_frame df →
  filter_by df filter_by_df filter_by_cols = inr out →
  filter_by out filter_by_df filter_by_cols = inr out.
Proof.
  intros Hwf Hout. unfold filter_by in Hout.
  apply bind_inr in Hout as (index & Hindex & (other & Hother & [= <-])%bind_inr).
  pose proof Hindex as Hindex'. unfold set_index in Hindex'.
  apply bind_inr in Hindex' as (ss & Hss & [= <-]).
  set (index := key_at ss <$> seq 0 (nrows df)) in *.
  set (mask := negb <$> isin index other).
  assert (length mask = nrows df) as Hm.
  { unfold mask, isin, index. by rewrite !length_fmap, length_seq. }
  destruct (filter_by_wf df mask Hwf Hm) as [Hwf' _].
  unfold filter_by.
  rewrite (set_index_loc_mask_cols df mask filter_by_cols ss) by done.
  fold index. rewrite Hother. simpl. f_equal.
  apply loc_mask_all_true; [done| |].
  - unfold mask at 1. rewrite (not_isin_filter index), compress_fmap_filter.
    apply Forall_fmap, Forall_fmap, Forall_forall.
    intros k [Hk _]%list_elem_of_filter. simpl in *.
    apply negb_true_iff, bool_decide_eq_false in Hk.
    by rewrite bool_decide_eq_false_2.
  - unfold isin. rewrite !length_fmap. apply length_compress.
    unfold index. by rewrite Hm, length_fmap, length_seq.
Qed.

Lemma filter_by_idempotent_witness :
  filter_by (mkDF 2 [ ("userID", mkSeries (DInt 64) [VInt 1; VInt 1]);
                      ("itemID", mkSeries (DInt 64) [VInt 20; VInt 20]) ])
            (mkDF 1 [ ("userID", mkSeries (DInt 64) [VInt 3]) ]) ["userID"]
    = inr (mkDF 2 [ ("userID", mkSeries (DInt 64) [VInt 1; VInt 1]);
                    ("itemID", mkSeries (DInt 64) [VInt 20; VInt 20]) ]).
Proof.
  apply (filter_by_idempotent seen2).
  - by apply (bool_decide_unpack _).
  - reflexivity.
Defined.

End FilterMore.

(** ** user_item_pairs: the caller's frames, aliasing, the shuffled result *)

Section PairsMore.
Import Pairs.

Lemma lookup_assign_col_eq cols name s : lookup_col (assign_col cols name s) name = Some s.
Proof.
  induction cols as [|[n s0] cols IH]; simpl.
  - by rewrite decide_True.
  - destruct (decide (n = name)) as [->|Hne]; simpl.
    + by rewrite decide_True.
    + by rewrite decide_False.
Qed.

Lemma filter_assign_col cols name s :
  filter (λ c, c.1 ≠ name) (assign_col cols name s) = filter (λ c, c.1 ≠ name) cols.
Proof.
  induction cols as [|[n s0] cols IH]; simpl.
  - by rewrite filter_cons_False by (simpl; auto).
  - destruct (decide (n = name)) as [->|Hne].
    + rewrite !filter_cons_False by (simpl; auto). done.
    + rewrite !filter_cons_True by done. by rewrite IH.
Qed.

Lemma drop_col_keyed df : drop_col (keyed df) "key" = inr (without_key df).
Proof.
  unfold drop_col, keyed, set_col, without_key, column_names. simpl.
  rewrite decide_True.
  - by rewrite filter_assign_col.
  - eapply lookup_col_name, lookup_assign_col_eq.
Qed.

Lemma without_key_names df : "key" ∉ column_names (without_key df).
Proof.
  unfold column_names, without_key. simpl.
  intros ([n s] & Hn & [Hne _]%list_elem_of_filter)%list_elem_of_fmap.
  simpl in *. congruence.
Qed.

Lemma without_key_fresh df : "key" ∉ column_names df → without_key df = df.
Proof.
  intros H. unfold without_key. rewrite filter_names_fresh by done. by destruct df.
Qed.

Lemma without_key_keyed df : without_key (keyed df) = without_key df.
Proof. unfold without_key, keyed, set_col. simpl. by rewrite filter_assign_col. Qed.

(** The merge of two frames that both have the key column is defined,
    and its result has the key column. *)
Lemma merge_defined left right on_ :
  on_ ∈ column_names left → on_ ∈ column_names right →
  ∃ m, merge left right on_ = inr m ∧ on_ ∈ column_names m.
Proof.
  intros [lk Hlk]%lookup_col_Some [rk Hrk]%lookup_col_Some.
  unfold merge, get_col. rewrite Hlk, Hrk. simpl.
  eexists. split; [done|]. unfold column_names. simpl.
  rewrite fmap_app, elem_of_app. left.
  apply list_elem_of_fmap. exists (on_, take (join_locs (key_of <$> values lk)
                                                   (key_of <$> values rk)).*1 lk).
  split; [done|].
  apply list_elem_of_fmap. exists (on_, lk). split.
  - simpl. unfold suffixed. rewrite decide_False; [done|]. by intros [? _].
  - by apply lookup_col_elem.
Qed.

Lemma keyed_has_key df : "key" ∈ column_names (keyed df).
Proof. eapply lookup_col_name. apply lookup_assign_col_eq. Qed.

(** X5 -- whatever the outcome of the call, result or exception, for two
    distinct frames: each of the caller's two frames is left without its
    columns called [key] and otherwise as it was, so a frame that has no
    such column is unchanged; no other frame of the store is touched. *)
Theorem user_item_pairs_callers_frames rng h user_df item_df user_col item_col
    flt shuffle :
  user_df ≠ item_df →
  let h' := (user_item_pairs rng user_df item_df user_col item_col flt shuffle h).2 in
  h' user_df = without_key (h user_df) ∧
  h' item_df = without_key (h item_df) ∧
  (∀ r, r ≠ user_df → r ≠ item_df → h' r = h r) ∧
  ("key" ∉ column_names (h user_df) → h' user_df = h user_df) ∧
  ("key" ∉ column_names (h item_df) → h' item_df = h item_df).
Proof.
  intros Hne h'.
  assert (item_df ≠ user_df) as Hne' by done.
  destruct (merge_defined (keyed (h user_df)) (keyed (h item_df)) "key"
              (keyed_has_key _) (keyed_has_key _)) as (m & Hm & _).
  assert (h' user_df = without_key (h user_df) ∧ h' item_df = without_key (h item_df) ∧
          ∀ r, r ≠ user_df → r ≠ item_df → h' r = h r) as (Hu & Hi & Hr).
  { unfold h', user_item_pairs, setitem_scalar, drop_inplace, bindM, readM, writeM,
      liftM, retM. simpl.
    repeat (rewrite store_same || rewrite store_other by done).
    fold (keyed (h user_df)). fold (keyed (h item_df)).
    rewrite Hm. rewrite !drop_col_keyed.
    repeat (rewrite store_same || rewrite store_other by done).
    rewrite drop_col_keyed.
    destruct (drop_col m "key") as [e|users_items]; simpl.
    - split; [|split].
      + by rewrite store_other, store_same by done.
      + by rewrite store_same.
      + intros r Hru Hri. by rewrite !store_other by done.
    - assert (∀ res : result DataFrame * heap,
                res.2 = store (store (store (store h user_df (keyed (h user_df)))
                                            item_df (keyed (h item_df)))
                                     user_df (without_key (h user_df)))
                              item_df (without_key (h item_df)) →
                res.2 user_df = without_key (h user_df) ∧
                res.2 item_df = without_key (h item_df) ∧
                (∀ r, r ≠ user_df → r ≠ item_df → res.2 r = h r)) as Hres.
      { intros res ->. split; [|split].
        + by rewrite store_other, store_same by done.
        + by rewrite store_same.
        + intros r Hru Hri. by rewrite !store_other by done. }
      apply Hres.
      destruct flt as [f|]; simpl; [|done].
      by destruct (filter_by users_items f [user_col; item_col]). }
  split; [done|]. split; [done|]. split; [done|]. split.
  - intros Hk. by rewrite Hu, without_key_fresh.
  - intros Hk. by rewrite Hi, without_key_fresh.
Qed.

Lemma user_item_pairs_callers_frames_witness :
  (user_item_pairs (λ n, seq 0 n) 0 1 "userID" "genre" (Some seen2) true
                   (two_frames users_with_key items2)).2 0%nat
    = without_key users_with_key.
Proof.
  destruct (user_item_pairs_callers_frames (λ n, seq 0 n) (two_frames users_with_key items2)
              0 1 "userID" "genre" (Some seen2) true) as (Hu & _).
  - lia.
  - exact Hu.
Defined.

(** X6 -- called with one and the same frame for the users and the items, the
    call always ends in the key error of the second in-place drop (line
    42), and leaves the frame without its columns called [key]. *)
Theorem user_item_pairs_same_frame rng h df user_col item_col flt shuffle :
  ∃ h', user_item_pairs rng df df user_col item_col flt shuffle h
          = (inl (KeyError "key"), h') ∧
        h' df = without_key (h df) ∧
        ∀ r, r ≠ df → h' r = h r.
Proof.
  destruct (merge_defined (keyed (keyed (h df))) (keyed (keyed (h df))) "key"
              (keyed_has_key _) (keyed_has_key _)) as (m & Hm & _).
  unfold user_item_pairs, setitem_scalar, drop_inplace, bindM, readM, writeM, liftM, retM.
  simpl. rewrite !store_same.
  fold (keyed (h df)). fold (keyed (keyed (h df))).
  rewrite Hm. rewrite drop_col_keyed. rewrite !store_same.
  unfold drop_col at 1.
  rewrite decide_False by apply without_key_names.
  eexists. split; [done|]. split.
  - by rewrite store_same, !without_key_keyed.
  - intros r Hr. by rewrite !store_other by done.
Qed.

(** *** The result is a well-formed frame *)

Lemma cross_join_wf u i :
  wf_frame u → wf_frame i → column_names u ## column_names i →
  wf_frame (cross_join u i).
Proof.
  intros [Hndu Hlu] [Hndi Hli] Hdisj. split.
  - rewrite cross_join_names. apply NoDup_app. split; [done|]. split; [|done].
    intros x Hx Hy. by apply (Hdisj x).
  - unfold cross_join. cbn [columns nrows]. apply Forall_app. split; apply Forall_fmap.
    + eapply Forall_impl; [exact Hlu|]. intros c Hc.
      change (length (values (take (cross_locs u i).*1 c.2)) = length (cross_locs u i)).
      by rewrite take_cross_l, length_fmap.
    + eapply Forall_impl; [exact Hli|]. intros c Hc.
      change (length (values (take (cross_locs u i).*2 c.2)) = length (cross_locs u i)).
      by rewrite take_cross_r, length_fmap.
Qed.

Lemma take_rows_wf df locs :
  wf_frame df → Forall (λ j, (j < nrows df)%nat) locs →
  wf_frame (take_rows df locs) ∧ column_names (take_rows df locs) = column_names df.
Proof.
  intros [Hnd Hlen] Hvalid.
  assert (column_names (take_rows df locs) = column_names df) as Hnames.
  { unfold column_names, take_rows. simpl. apply (names_fmap_series (take locs)). }
  split; [|done]. split; [by rewrite Hnames|].
  unfold take_rows. simpl. apply Forall_fmap.
  eapply Forall_impl; [exact Hlen|]. intros c Hc. simpl.
  rewrite omap_lookup_total by (by rewrite Hc). by rewrite length_fmap.
Qed.

Lemma filter_by_inr_wf df f cols out :
  wf_frame df → filter_by df f cols = inr out →
  wf_frame out ∧ column_names out = column_names df.
Proof.
  intros Hwf Hout. unfold filter_by in Hout.
  apply bind_inr in Hout as (index & Hindex & (other & Hother & [= <-])%bind_inr).
  apply filter_by_wf; [done|].
  unfold set_index in Hindex. apply bind_inr in Hindex as (ss & _ & [= <-]).
  unfold isin. by rewrite !length_fmap, length_seq.
Qed.

(** Whenever the call returns, filtered or not, shuffled or not, the
    result is a well-formed frame (uniquely named columns, all as long as
    the index) with the columns of the user frame followed by the columns
    of the item frame. *)
Lemma user_item_pairs_well_formed rng h user_df item_df user_col item_col
    flt shuffle out h' :
  user_df ≠ item_df →
  wf_frame (h user_df) → wf_frame (h item_df) →
  "key" ∉ column_names (h user_df) → "key" ∉ column_names (h item_df) →
  column_names (h user_df) ## column_names (h item_df) →
  (∀ n, rng n ≡ₚ seq 0 n) →
  user_item_pairs rng user_df item_df user_col item_col flt shuffle h = (inr out, h') →
  wf_frame out ∧
  column_names out = column_names (h user_df) ++ column_names (h item_df).
Proof.
  intros Hne Hwu Hwi Hku Hki Hdisj Hrng Hcall.
  destruct (user_item_pairs_run rng h user_df item_df user_col item_col flt shuffle
              Hne Hku Hki Hdisj) as (h'' & Hrun & _).
  rewrite Hrun in Hcall. injection Hcall as Hres _.
  apply bind_inr in Hres as (x & Hx & [= <-]).
  assert (wf_frame x ∧
          column_names x = column_names (h user_df) ++ column_names (h item_df))
    as [Hwx Hnx].
  { pose proof (cross_join_wf _ _ Hwu Hwi Hdisj) as Hwc.
    destruct flt as [f|].
    - destruct (filter_by_inr_wf _ _ _ _ Hwc Hx) as [? Hn].
      split; [done|]. by rewrite Hn, cross_join_names.
    - injection Hx as <-. split; [done|]. apply cross_join_names. }
  destruct shuffle; [|done].
  destruct (take_rows_wf x (rng (nrows x)) Hwx) as [Hw Hn].
  - apply Forall_forall. intros j Hj. rewrite Hrng in Hj.
    apply elem_of_seq in Hj. lia.
  - split; [exact Hw|]. unfold sample_all. by rewrite Hn.
Qed.

Lemma user_item_pairs_well_formed_witness :
  ∃ out h',
    user_item_pairs (λ n, reverse (seq 0 n)) 0 1 "userID" "itemID" (Some seen2) true
                    (two_frames users3 items2) = (inr out, h') ∧
    wf_frame out.
Proof.
  eexists _, _. split; [reflexivity|].
  eapply (user_item_pairs_well_formed (λ n, reverse (seq 0 n)) (two_frames users3 items2)
            0 1 "userID" "itemID" (Some seen2) true).
  - lia.
  - by apply (bool_decide_unpack _).
  - by apply (bool_decide_unpack _).
  - by apply (bool_decide_unpack _).
  - by apply (bool_decide_unpack _).
  - intros x Hx Hy. unfold two_frames, column_names in Hx, Hy. simpl in Hx, Hy.
    set_solver.
  - intros n. apply reverse_Permutation.
  - reflexivity.
Defined.

(** The default call, shuffled and without a filter: the result has
    [n * m] rows, and the (user, item) keys of its rows are a permutation
    of the pairs of a user key and an item key, so with distinct ids no
    pair is missing and none is repeated. *)
Lemma user_item_pairs_shuffled rng h user_df item_df user_col item_col su si :
  user_df ≠ item_df →
  wf_frame (h user_df) → wf_frame (h item_df) →
  "key" ∉ column_names (h user_df) → "key" ∉ column_names (h item_df) →
  column_names (h user_df) ## column_names (h item_df) →
  lookup_col (columns (h user_df)) user_col = Some su →
  lookup_col (columns (h item_df)) item_col = Some si →
  (∀ n, rng n ≡ₚ seq 0 n) →
  ∃ out h' index,
    user_item_pairs rng user_df item_df user_col item_col None true h = (inr out, h') ∧
    nrows out = (nrows (h user_df) * nrows (h item_df))%nat ∧
    set_index out [user_col; item_col] = inr index ∧
    index ≡ₚ (λ p, [p.1; p.2]) <$> cross (key_of <$> values su) (key_of <$> values si) ∧
    (NoDup (key_of <$> values su) → NoDup (key_of <$> values si) → NoDup index).
Proof.
  intros Hne Hwu Hwi Hku Hki Hdisj Hsu Hsi Hrng.
  destruct (user_item_pairs_run rng h user_df item_df user_col item_col None true
              Hne Hku Hki Hdisj) as (h' & Hrun & _).
  simpl in Hrun.
  assert (keyed_on (cross_join (h user_df) (h item_df)) user_col item_col
            ((λ p : pykey * pykey, [p.1; p.2])
               <$> cross (key_of <$> values su) (key_of <$> values si))) as Hview.
  { apply keyed_on_cross_join; try done. apply lookup_col_name in Hsi. set_solver. }
  destruct (keyed_on_take_rows _ (rng (nrows (cross_join (h user_df) (h item_df))))
              _ _ _ Hview (Hrng _)) as (index & Hview' & Hperm).
  destruct (keyed_on_set_index _ _ _ _ Hview') as [Hk Hlen].
  eexists _, h', index. split; [exact Hrun|]. split; [|split; [exact Hk|split; [done|]]].
  - unfold sample_all, take_rows. simpl. rewrite Hrng, length_seq.
    unfold cross_locs. by rewrite length_cross, !length_seq.
  - intros Hndu Hndi. rewrite Hperm.
    apply (NoDup_fmap_2 _ (Inj0 := key_pair_inj)). by apply NoDup_cross.
Qed.

Lemma user_item_pairs_shuffled_witness :
  ∃ out h',
    user_item_pairs (λ n, reverse (seq 0 n)) 0 1 "userID" "itemID" None true
                    (two_frames users3 items2) = (inr out, h') ∧
    nrows out = 6%nat.
Proof.
  destruct (user_item_pairs_shuffled (λ n, reverse (seq 0 n)) (two_frames users3 items2)
              0 1 "userID" "itemID"
              (mkSeries (DInt 64) [VInt 1; VInt 2; VInt 3])
              (mkSeries (DInt 64) [VInt 10; VInt 20]))
    as (out & h' & index & Hrun & Hn & _).
  - lia.
  - by apply (bool_decide_unpack _).
  - by apply (bool_decide_unpack _).
  - by apply (bool_decide_unpack _).
  - by apply (bool_decide_unpack _).
  - intros x Hx Hy. unfold two_frames, column_names in Hx, Hy. simpl in Hx, Hy.
    set_solver.
  - reflexivity.
  - reflexivity.
  - intros n. apply reverse_Permutation.
  - exists out, h'. split; [exact Hrun | exact Hn].
Defined.

End PairsMore.

(** ** libffm_converter: outcome, shape of the result, tokens, codes *)

Section LibFFMMore.
Import LibFFM.

Lemma convert_token d field v j :
  (isinstance_str v = true → is_Some (d !! (field, key_of v))) →
  _convert field v j d = inr (token d field j v).
Proof.
  intros Hv. unfold _convert, token. destruct (isinstance_str v); [|done].
  destruct (Hv eq_refl) as [c ->]. done.
Qed.

Lemma lookup_assign_col_ne cols name s name' :
  name ≠ name' → lookup_col (assign_col cols name s) name' = lookup_col cols name'.
Proof.
  intros Hne. induction cols as [|[n s0] cols IH]; simpl.
  - by rewrite decide_False.
  - destruct (decide (n = name)) as [->|Hn]; simpl.
    + by rewrite !decide_False.
    + destruct (decide (n = name')); [done|]. exact IH.
Qed.

Lemma names_assign_col cols name s :
  name ∈ cols.*1 → (assign_col cols name s).*1 = cols.*1.
Proof.
  induction cols as [|[n s0] cols IH]; simpl.
  - by intros ?%elem_of_nil.
  - intros Hin. destruct (decide (n = name)) as [->|Hn]; [done|].
    simpl. f_equal. apply IH. apply elem_of_cons in Hin as [?|?]; [congruence|done].
Qed.

(** Lines 156-157: the columns named in [cols] are replaced by their
    tokens, each with its own index, and nothing else changes. *)
Lemma convert_cols_ok d cols :
  ∀ df_new,
  NoDup cols.*2 →
  (∀ j c, (j, c) ∈ cols →
     ∃ s, lookup_col (columns df_new) c = Some s ∧
          ∀ v, v ∈ values s → isinstance_str v = true → is_Some (d !! (c, key_of v))) →
  ∃ out, convert_cols d df_new cols = inr out ∧
         nrows out = nrows df_new ∧
         column_names out = column_names df_new ∧
         (∀ name, name ∉ cols.*2 →
            lookup_col (columns out) name = lookup_col (columns df_new) name) ∧
         (∀ j c s, (j, c) ∈ cols → lookup_col (columns df_new) c = Some s →
            lookup_col (columns out) c
              = Some (mkSeries DObject ((λ v, VStr (token d c (j + 1) v)) <$> values s))).
Proof.
  induction cols as [|[j0 c0] cols IH]; intros df_new Hnd Hok.
  - exists df_new. split; [done|]. split; [done|]. split; [done|]. split; [done|].
    intros j c s Hin. by apply elem_of_nil in Hin.
  - simpl in Hnd. apply NoDup_cons in Hnd as [Hc0 Hnd].
    destruct (Hok j0 c0) as (s0 & Hs0 & Hcells); [left|].
    simpl. unfold get_col at 1. rewrite Hs0. simpl.
    rewrite (mapR_ext _ (λ x, ret (VStr (token d c0 (j0 + 1) x)))).
    2:{ intros v Hv. rewrite convert_token; [done|]. by apply Hcells. }
    rewrite mapR_ret. simpl.
    set (df1 := set_col df_new c0 _).
    destruct (IH df1 Hnd) as (out & Hout & Hn & Hnames & Hother & Hconv).
    { intros j c Hin.
      assert (c0 ≠ c) as Hne.
      { intros ->. apply Hc0. apply list_elem_of_fmap. by exists (j, c). }
      destruct (Hok j c) as (s & Hs & Hcs); [by right|].
      exists s. split; [|done]. unfold df1, set_col. simpl.
      by rewrite lookup_assign_col_ne. }
    exists out. split; [done|]. split; [done|]. split.
    { rewrite Hnames. unfold df1, set_col, column_names. simpl.
      apply names_assign_col. by apply lookup_col_name in Hs0. }
    split.
    + intros name Hname. simpl in Hname. apply not_elem_of_cons in Hname as [Hne Hname].
      rewrite Hother by done. unfold df1, set_col. simpl.
      by rewrite lookup_assign_col_ne.
    + intros j c s Hin Hs. apply elem_of_cons in Hin as [[= -> ->]|Hin].
      * rewrite Hother by done. unfold df1, set_col. simpl.
        rewrite lookup_assign_col_eq. rewrite Hs0 in Hs. by injection Hs as ->.
      * assert (c0 ≠ c) as Hne.
        { intros ->. apply Hc0. apply list_elem_of_fmap. by exists (j, c). }
        apply Hconv; [done|]. unfold df1, set_col. simpl.
        by rewrite lookup_assign_col_ne.
Qed.

Lemma enumerate_names {A} (l : list A) : (enumerate l).*2 = l.
Proof.
  unfold enumerate. rewrite fmap_imap. rewrite (imap_ext _ (const id)); [|done].
  by rewrite imap_const, list_fmap_id.
Qed.

Lemma elem_of_enumerate {A} (l : list A) j a : (j, a) ∈ enumerate l ↔ l !! j = Some a.
Proof.
  unfold enumerate. rewrite elem_of_lookup_imap. split.
  - by intros (i & y & [= -> ->] & Hi).
  - intros Hj. by exists j, a.
Qed.

Lemma lookup_col_NoDup cols name s :
  NoDup cols.*1 → (name, s) ∈ cols → lookup_col cols name = Some s.
Proof.
  induction cols as [|[n s0] cols IH]; intros Hnd Hin; simpl.
  - by apply elem_of_nil in Hin.
  - simpl in Hnd. apply NoDup_cons in Hnd as [Hn Hnd].
    apply elem_of_cons in Hin as [[= -> ->]|Hin].
    + by rewrite decide_True.
    + rewrite decide_False; [by apply IH|].
      intros ->. apply Hn. apply list_elem_of_fmap. by exists (name, s).
Qed.

(** [df[names]] for distinct names that the frame has. *)
Lemma select_cols_ok df names :
  names ⊆ column_names df → NoDup names →
  ∃ out, select_cols df names = inr out ∧ nrows out = nrows df ∧
         column_names out = names ∧
         ∀ n, n ∈ names → lookup_col (columns out) n = lookup_col (columns df) n.
Proof.
  intros Hsub Hnd. unfold select_cols.
  assert (∃ cols, mapR (λ n, s ←! get_col df n; ret (n, s)) names = inr cols ∧
                  cols.*1 = names ∧
                  ∀ n s, (n, s) ∈ cols → lookup_col (columns df) n = Some s)
    as (cols & -> & Hnames & Hcols).
  { clear Hnd. induction names as [|n names IH]; simpl.
    - exists []. split; [done|]. split; [done|]. intros n s Hin. by apply elem_of_nil in Hin.
    - destruct (lookup_col_Some (columns df) n) as [s Hs]; [set_solver|].
      destruct IH as (cols & -> & Hnames & Hcols); [set_solver|].
      unfold get_col. rewrite Hs. simpl.
      exists ((n, s) :: cols). split; [done|]. split; [by rewrite fmap_cons, Hnames|].
      intros n' s' [[= -> ->]|Hin]%elem_of_cons; [done|by apply Hcols]. }
  simpl. eexists. split; [done|]. split; [done|]. split; [done|].
  intros n Hn. simpl.
  rewrite <-Hnames in Hn, Hnd.
  apply list_elem_of_fmap in Hn as ([n' s] & -> & Hin). simpl.
  rewrite (lookup_col_NoDup cols n' s) by done. symmetry. by apply Hcols.
Qed.

Lemma elem_of_scan_intro df fields field s v :
  field ∈ fields → lookup_col (columns df) field = Some s → dtype_of s = DObject →
  v ∈ values s → (field, key_of v) ∈ scan df fields.
Proof.
  intros Hf Hs Hd Hv. unfold scan. apply list_elem_of_bind. exists field.
  split; [|done]. unfold scan_field. rewrite Hs, decide_True by done.
  apply list_elem_of_fmap. by exists v.
Qed.

Lemma NoDup_filter_names (names : list string) col :
  NoDup names → NoDup (col :: filter (λ n, n ≠ col) names).
Proof.
  intros Hnd. apply NoDup_cons. split.
  - intros [Hne _]%list_elem_of_filter. done.
  - by apply NoDup_filter.
Qed.

(** The whole call on a well-formed frame that passes the type check and
    has the label column. *)
Lemma libffm_converter_ok df col_rating :
  wf_frame df → typed_frame df → check_types df = true →
  col_rating ∈ column_names df →
  let fields := filter (λ n, n ≠ col_rating) (column_names df) in
  ∃ st out,
    encode_fields df init_state fields = inr st ∧
    st = foldl encode_key init_state (scan df fields) ∧
    libffm_converter df col_rating = inr out ∧
    nrows out = nrows df ∧
    column_names out = col_rating :: fields ∧
    lookup_col (columns out) col_rating = lookup_col (columns df) col_rating ∧
    ∀ j field s, fields !! j = Some field → lookup_col (columns df) field = Some s →
      lookup_col (columns out) field
        = Some (mkSeries DObject
                  ((λ v, VStr (token (field_feature_dict st) field (j + 1) v)) <$> values s)).
Proof.
  intros [Hnd Hlen] Htyped Hcheck Hcol fields.
  assert (fields ⊆ column_names df) as Hsub.
  { intros n Hn. by apply list_elem_of_filter in Hn as [_ ?]. }
  pose proof (NoDup_filter_names _ col_rating Hnd) as Hnd'. fold fields in Hnd'.
  pose proof Hnd' as [Hcf Hndf]%NoDup_cons.
  set (st := foldl encode_key init_state (scan df fields)).
  pose proof (foldl_encode_key_scanned (scan df fields) init_state [] scanned_init)
    as [_ Hdom]. fold st in Hdom. simpl in Hdom.
  destruct (convert_cols_ok (field_feature_dict st) (enumerate fields) df)
    as (df_new & Hconv & Hn & Hnames & Hother & Hcells).
  { by rewrite enumerate_names. }
  { intros j c Hjc%elem_of_enumerate.
    destruct (lookup_col_Some (columns df) c) as [s Hs].
    { apply Hsub. by apply list_elem_of_lookup_2 in Hjc. }
    exists s. split; [done|]. intros v Hv Hstr.
    apply elem_of_dom. rewrite Hdom. apply elem_of_list_to_set.
    apply (elem_of_scan_intro df fields c s v); try done.
    - by apply list_elem_of_lookup_2 in Hjc.
    - destruct (decide (dtype_of s = DObject)) as [|Hd]; [done|]. exfalso.
      unfold typed_frame in Htyped. rewrite Forall_forall in Htyped.
      pose proof (Htyped _ (lookup_col_elem _ _ _ Hs) Hd) as Hall.
      rewrite Forall_forall in Hall. specialize (Hall v Hv). congruence. }
  destruct (select_cols_ok df_new (col_rating :: fields)) as (out & Hsel & Hn' & Hnames' & Hlook).
  { rewrite Hnames. intros n [->|Hin]%elem_of_cons; [done|by apply Hsub]. }
  { done. }
  exists st, out. split; [by apply encode_fields_scan|]. split; [done|].
  split; [|split; [congruence|split; [done|split]]].
  - unfold libffm_converter. rewrite Hcheck. simpl.
    unfold drop_col. rewrite decide_True by done. simpl.
    assert (column_names {| nrows := nrows df;
                           columns := filter (λ c, c.1 ≠ col_rating) (columns df) |}
            = fields) as ->.
    { apply (drop_col_names df col_rating). unfold drop_col. by rewrite decide_True. }
    rewrite encode_fields_scan by done. simpl. fold st.
    rewrite Hconv. simpl. exact Hsel.
  - rewrite Hlook by left. apply Hother. by rewrite enumerate_names.
  - intros j field s Hj Hs. rewrite Hlook.
    + apply Hcells; [by apply elem_of_enumerate|done].
    + right. by apply list_elem_of_lookup_2 in Hj.
Qed.

(** How the call ends, on a well-formed frame: with the type error when
    the type check fails, whatever the label name; otherwise with a key
    error for the label name when no column has it; otherwise with a
    result. *)
Lemma libffm_converter_outcome df col_rating :
  wf_frame df → typed_frame df →
  (check_types df = false → is_type_error (libffm_converter df col_rating)) ∧
  (check_types df = true → col_rating ∉ column_names df →
     libffm_converter df col_rating = inl (KeyError col_rating)) ∧
  (check_types df = true → col_rating ∈ column_names df →
     ∃ out, libffm_converter df col_rating = inr out).
Proof.
  intros Hwf Htyped. split; [|split].
  - intros Hc. unfold libffm_converter. rewrite Hc. by eexists.
  - intros Hc Hcol. unfold libffm_converter, drop_col. rewrite Hc. simpl.
    by rewrite decide_False.
  - intros Hc Hcol.
    destruct (libffm_converter_ok df col_rating Hwf Htyped Hc Hcol)
      as (st & out & _ & _ & Hout & _).
    by exists out.
Qed.

Lemma libffm_converter_outcome_witness :
  libffm_converter df_feature "label" = inl (KeyError "label").
Proof.
  destruct (libffm_converter_outcome df_feature "label") as (_ & Hkey & _).
  - by apply (bool_decide_unpack _).
  - by apply (bool_decide_unpack _).
  - apply Hkey; [reflexivity|]. by apply (bool_decide_unpack _).
Defined.



(** X8 -- the tokens: the cell of row [i] in the field of index [j + 1] is
    [j+1:j+1:value] when the input cell is not a string, and [j+1:code:1]
    with the code that the dictionary of the call has for the field and
    the string when it is one. *)
Theorem libffm_converter_tokens df col_rating :
  wf_frame df → typed_frame df → check_types df = true →
  col_rating ∈ column_names df →
  let fields := filter (λ n, n ≠ col_rating) (column_names df) in
  ∃ st out,
    encode_fields df init_state fields = inr st ∧
    libffm_converter df col_rating = inr out ∧
    ∀ j field s i v,
      fields !! j = Some field → lookup_col (columns df) field = Some s →
      values s !! i = Some v →
      ∃ s' t, lookup_col (columns out) field = Some s' ∧
              values s' !! i = Some (VStr t) ∧
              ((isinstance_str v = false ∧
                t = pretty (j + 1)%nat +:+ ":" +:+ pretty (j + 1)%nat +:+ ":" +:+ py_str v) ∨
               (∃ x code, v = VStr x ∧
                  field_feature_dict st !! (field, KStr x) = Some code ∧
                  t = pretty (j + 1)%nat +:+ ":" +:+ pretty code +:+ ":1")).
Proof.
  intros Hwf Htyped Hc Hcol fields.
  destruct (libffm_converter_ok df col_rating Hwf Htyped Hc Hcol)
    as (st & out & Hst & Hst' & Hout & _ & _ & _ & Hcells).
  fold fields in Hst, Hst', Hcells.
  exists st, out. split; [done|]. split; [done|].
  intros j field s i v Hj Hs Hv.
  eexists _, _. split; [by apply (Hcells j)|]. simpl.
  split; [by rewrite list_lookup_fmap, Hv|].
  unfold token. destruct v as [x| | |]; simpl; try (by left).
  right. exists x.
  assert (is_Some (field_feature_dict st !! (field, KStr x))) as [code Hcode].
  { pose proof (foldl_encode_key_scanned (scan df fields) init_state [] scanned_init)
      as [_ Hdom]. rewrite <-Hst' in Hdom. simpl in Hdom.
    apply elem_of_dom. rewrite Hdom. apply elem_of_list_to_set.
    apply (elem_of_scan_intro df fields field s (VStr x)).
    - by apply list_elem_of_lookup_2 in Hj.
    - done.
    - destruct (decide (dtype_of s = DObject)) as [|Hd]; [done|]. exfalso.
      unfold typed_frame in Htyped. rewrite Forall_forall in Htyped.
      pose proof (Htyped _ (lookup_col_elem _ _ _ Hs) Hd) as Hall.
      rewrite Forall_forall in Hall.
      by specialize (Hall (VStr x) (list_elem_of_lookup_2 _ _ _ Hv)).
    - by apply list_elem_of_lookup_2 in Hv. }
  exists code. rewrite Hcode. done.
Qed.

Lemma libffm_converter_tokens_witness :
  ∃ st out,
    encode_fields df_feature init_state ["field1"; "field2"; "field3"; "field4"] = inr st ∧
    libffm_converter df_feature "rating" = inr out.
Proof.
  destruct (libffm_converter_tokens df_feature "rating") as (st & out & Hst & Hout & _).
  - by apply (bool_decide_unpack _).
  - by apply (bool_decide_unpack _).
  - reflexivity.
  - by apply (bool_decide_unpack _).
  - exists st, out. split; [exact Hst | exact Hout].
Defined.

(** *** The codes of the dictionary *)

Lemma coded_init : coded init_state.
Proof.
  unfold coded, init_state. simpl. split_and!.
  - by rewrite map_size_empty.
  - intros k c Hk. by rewrite lookup_empty in Hk.
  - intros k k' c Hk. by rewrite lookup_empty in Hk.
  - intros c Hc. lia.
Qed.

Lemma encode_key_coded st k : coded st → coded (encode_key st k).
Proof.
  intros (Hidx & Hrange & Hinj & Hsurj). unfold encode_key.
  destruct (field_feature_dict st !! k) as [c0|] eqn:Hk; [done|].
  unfold coded. simpl. split_and!.
  - rewrite map_size_insert_None by done. by rewrite Hidx.
  - intros k1 c. rewrite lookup_insert. case_decide.
    + intros [= <-]. lia.
    + intros Hc%Hrange. lia.
  - intros k1 k2 c. rewrite !lookup_insert. repeat case_decide; subst.
    + done.
    + intros [= <-] Hc%Hrange. lia.
    + intros Hc%Hrange [= <-]. lia.
    + apply Hinj.
  - intros c Hc. destruct (decide (c = idx st)) as [->|Hne].
    + exists k. by rewrite lookup_insert_eq.
    + destruct (Hsurj c) as [k1 Hk1]; [lia|]. exists k1.
      rewrite lookup_insert_ne; [done|]. intros ->. congruence.
Qed.

Lemma foldl_encode_key_coded l st : coded st → coded (foldl encode_key st l).
Proof.
  revert st. induction l as [|k l IH]; intros st Hst; simpl; [done|].
  by apply IH, encode_key_coded.
Qed.

(** X9 -- the dictionary of a call numbers its keys: the codes are the numbers
    from 1 to the number of keys, every one of them the code of exactly
    one (field, value) key, so a code names its field and value. *)
Theorem feature_codes_bijective df col_rating dropped :
  drop_col df col_rating = inr dropped →
  ∃ st, encode_fields df init_state (column_names dropped) = inr st ∧
    (∀ k c, field_feature_dict st !! k = Some c →
       (1 ≤ c ≤ size (field_feature_dict st))%nat) ∧
    (∀ k k' c, field_feature_dict st !! k = Some c →
       field_feature_dict st !! k' = Some c → k = k') ∧
    (∀ c, (1 ≤ c ≤ size (field_feature_dict st))%nat →
       ∃ k, field_feature_dict st !! k = Some c).
Proof.
  intros Hdrop.
  assert (column_names dropped ⊆ column_names df) as Hsub.
  { rewrite (drop_col_names _ _ _ Hdrop). intros n Hn.
    by apply list_elem_of_filter in Hn as [_ ?]. }
  eexists. split; [by apply encode_fields_scan|].
  destruct (foldl_encode_key_coded (scan df (column_names dropped)) init_state coded_init)
    as (Hidx & Hrange & Hinj & Hsurj).
  split; [|split].
  - intros k c Hk%Hrange. lia.
  - exact Hinj.
  - intros c Hc. apply Hsurj. lia.
Qed.

Lemma feature_codes_bijective_witness :
  ∃ st, encode_fields df_feature init_state ["field1"; "field2"; "field3"; "field4"]
          = inr st ∧
        ∀ k k' c, field_feature_dict st !! k = Some c →
                  field_feature_dict st !! k' = Some c → k = k'.
Proof.
  destruct (feature_codes_bijective df_feature "rating"
              (mkDF 5 (filter (λ c, c.1 ≠ "rating") (columns df_feature))) eq_refl)
    as (st & Hst & _ & Hinj & _).
  exists st. split; [exact Hst | exact Hinj].
Defined.

End LibFFMMore.
